(** * The expression workspace of the lambda playground (src/reactfront/src/App.js)

    A shallow embedding of the [App] component's state and event handlers:
    the library of saved expressions (a JavaScript object used as an ordered
    map), the expansion of saved names in the working expression (a global
    regular-expression replace per library entry), and the single-step
    reduction handler built around the WebAssembly reducer. *)

From Stdlib Require Import List NArith Arith Bool Lia String Ascii Permutation Sorted.
Import ListNotations.

Set Implicit Arguments.

(** ** JavaScript strings

    A JavaScript string is a finite sequence of UTF-16 code units. *)

Definition code_unit := N.
Definition jsstring := list code_unit.

Fixpoint str_eqb (a b : jsstring) : bool :=
  match a, b with
  | [], [] => true
  | x :: a', y :: b' => N.eqb x y && str_eqb a' b'
  | _, _ => false
  end.

(** Reading a UTF-8 encoded literal of this file as a JavaScript string
    (code points above U+FFFF become a surrogate pair). *)
Fixpoint utf16_of_utf8 (fuel : nat) (bs : list N) : jsstring :=
  match fuel with
  | O => []
  | S fuel' =>
    match bs with
    | [] => []
    | b0 :: r0 =>
      if (b0 <? 128)%N then b0 :: utf16_of_utf8 fuel' r0
      else if (b0 <? 224)%N then
        match r0 with
        | b1 :: r1 =>
            (N.land b0 31 * 64 + N.land b1 63)%N :: utf16_of_utf8 fuel' r1
        | _ => []
        end
      else if (b0 <? 240)%N then
        match r0 with
        | b1 :: b2 :: r2 =>
            (N.land b0 15 * 4096 + N.land b1 63 * 64 + N.land b2 63)%N
              :: utf16_of_utf8 fuel' r2
        | _ => []
        end
      else
        match r0 with
        | b1 :: b2 :: b3 :: r3 =>
            let cp := (N.land b0 7 * 262144 + N.land b1 63 * 4096
                       + N.land b2 63 * 64 + N.land b3 63)%N in
            let v := (cp - 65536)%N in
            (55296 + v / 1024)%N :: (56320 + v mod 1024)%N
              :: utf16_of_utf8 fuel' r3
        | _ => []
        end
    end
  end.

Definition js (s : string) : jsstring :=
  let bs := map N_of_ascii (list_ascii_of_string s) in
  utf16_of_utf8 (List.length bs) bs.

(** The empty string is the one falsy string. *)
Definition is_empty (s : jsstring) : bool :=
  match s with [] => true | _ :: _ => false end.

(** *** [String.prototype.trim]

    The code units of WhiteSpace and LineTerminator. *)
Definition is_whitespace (c : code_unit) : bool :=
  ((9 <=? c) && (c <=? 13) || (c =? 32) || (c =? 160) || (c =? 5760)
   || (8192 <=? c) && (c <=? 8202) || (c =? 8232) || (c =? 8233)
   || (c =? 8239) || (c =? 8287) || (c =? 12288) || (c =? 65279))%N.

Fixpoint trim_start (s : jsstring) : jsstring :=
  match s with
  | c :: s' => if is_whitespace c then trim_start s' else s
  | [] => []
  end.

Definition trim (s : jsstring) : jsstring :=
  rev (trim_start (rev (trim_start s))).

(** ** Ordinary objects as ordered maps

    [savedExpressions] is a plain object with string values.  An object is
    kept as its own properties in order of creation; what the program
    observes through [Object.entries] and the spread syntax is the order of
    OrdinaryOwnPropertyKeys: the array-index keys in ascending numeric
    order, then the other string keys in order of creation. *)

Definition entry := (jsstring * jsstring)%type.
Definition object := list entry.

Definition keys (o : list entry) : list jsstring := map fst o.

Definition is_digit (c : code_unit) : bool := ((48 <=? c) && (c <=? 57))%N.

Fixpoint decimal_value (acc : N) (s : jsstring) : N :=
  match s with
  | [] => acc
  | c :: s' => decimal_value (acc * 10 + (c - 48))%N s'
  end.

(** An array index is a canonical numeric string whose value is at most
    2^32 - 2. *)
Definition array_index (k : jsstring) : option N :=
  match k with
  | [] => None
  | c :: rest =>
      if forallb is_digit k
         && (negb (c =? 48)%N || match rest with [] => true | _ => false end)
         && (decimal_value 0 k <=? 4294967294)%N
      then Some (decimal_value 0 k)
      else None
  end.

Definition is_index (e : entry) : bool :=
  match array_index (fst e) with Some _ => true | None => false end.

Definition index_of (e : entry) : N :=
  match array_index (fst e) with Some n => n | None => 0%N end.

Fixpoint insert_index (e : entry) (l : list entry) : list entry :=
  match l with
  | [] => [e]
  | x :: l' =>
      if (index_of e <=? index_of x)%N then e :: l else x :: insert_index e l'
  end.

Fixpoint sort_index (l : list entry) : list entry :=
  match l with
  | [] => []
  | x :: l' => insert_index x (sort_index l')
  end.

Definition index_le (a b : entry) : Prop := (index_of a <= index_of b)%N.

(** [Object.entries(o)] *)
Definition Object_entries (o : object) : list entry :=
  sort_index (filter is_index o) ++ filter (fun e => negb (is_index e)) o.

Definition has_key (k : jsstring) (o : object) : bool :=
  existsb (fun e => str_eqb (fst e) k) o.

Definition overwrite (k v : jsstring) (e : entry) : entry :=
  if str_eqb (fst e) k then (fst e, v) else e.

(** [o[k] = v] on an object whose properties are all writable data
    properties: an existing property keeps its place and takes the new
    value, a new property is created last. *)
Definition obj_set (o : object) (k v : jsstring) : object :=
  if has_key k o then map (overwrite k v) o else o ++ [(k, v)].

(** [delete o[k]] *)
Definition obj_delete (o : object) (k : jsstring) : object :=
  filter (fun e => negb (str_eqb (fst e) k)) o.

(** [{ ...o }]: a fresh object that receives the own properties of [o] in
    the order of its own keys. *)
Definition spread (o : object) : object :=
  fold_left (fun acc e => obj_set acc (fst e) (snd e)) (Object_entries o) [].

(** An object has each key once. *)
Definition wf_object (o : object) : Prop := NoDup (keys o).

(** ** Regular expressions: [new RegExp(`\\b${name}\\b`, 'g')]

    The name is pasted into the pattern source as it is.  A name without
    syntax characters is a sequence of pattern characters, each matching
    itself; the pattern is then the name between two word-boundary
    assertions.  The flags are [g] only: no case folding, matching by code
    unit. *)

Inductive completion (A : Type) : Type :=
| Normal (value : A)
| Throw (err : jsstring).
Arguments Throw {A} err.

(** SyntaxCharacter: one of [^ $ \ . * + ? ( ) [ ] { } |] *)
Definition is_syntax_character (c : code_unit) : bool :=
  ((c =? 94) || (c =? 36) || (c =? 92) || (c =? 46) || (c =? 42) || (c =? 43)
   || (c =? 63) || (c =? 40) || (c =? 41) || (c =? 91) || (c =? 93)
   || (c =? 123) || (c =? 125) || (c =? 124))%N.

Definition literal_source (name : jsstring) : bool :=
  forallb (fun c => negb (is_syntax_character c)) name.

(** The word characters of [\b]: [A-Z], [a-z], [0-9] and [_]. *)
Definition is_word_char (c : code_unit) : bool :=
  ((48 <=? c) && (c <=? 57) || (65 <=? c) && (c <=? 90) || (c =? 95)
   || (97 <=? c) && (c <=? 122))%N.

(** IsWordChar(e) and IsWordChar(e - 1): false outside the input. *)
Definition word_at (input : jsstring) (e : nat) : bool :=
  match nth_error input e with
  | Some c => is_word_char c
  | None => false
  end.

Definition word_before (input : jsstring) (e : nat) : bool :=
  match e with
  | O => false
  | S p => word_at input p
  end.

(** The assertion [\b] at index [e]. *)
Definition word_boundary (input : jsstring) (e : nat) : bool :=
  negb (Bool.eqb (word_before input e) (word_at input e)).

Fixpoint starts_with (name rest : jsstring) : bool :=
  match name, rest with
  | [], _ => true
  | c :: name', d :: rest' => N.eqb c d && starts_with name' rest'
  | _ :: _, [] => false
  end.

(** Does [\bname\b] match at index [i]?  The match then ends at
    [i + length name]. *)
Definition match_at (name input : jsstring) (i : nat) : bool :=
  word_boundary input i
  && starts_with name (skipn i input)
  && word_boundary input (i + List.length name).

(** The matches of a global replace, from left to right.  The candidate
    indices are [0 .. length input]; an index below [lastIndex] lies inside
    the previous match and is not tried; after a match [lastIndex] is the
    end of the match, one further when the match is empty. *)
Fixpoint scan (name input : jsstring) (candidates : list nat) (lastIndex : nat)
  : list nat :=
  match candidates with
  | [] => []
  | i :: rest =>
      if (lastIndex <=? i) && match_at name input i
      then i :: scan name input rest (Nat.max (S i) (i + List.length name))
      else scan name input rest lastIndex
  end.

Definition match_positions (name input : jsstring) : list nat :=
  scan name input (seq 0 (S (List.length input))) 0.

(** GetSubstitution for a pattern without capture groups: [$$] is a dollar
    sign, [$&] the matched text, [$`] the text before the match, [$'] the
    text after it; a dollar sign before anything else (a digit, [<], any
    other unit, or the end) stands for itself. *)
Fixpoint GetSubstitution (matched str : jsstring) (position : nat)
  (template : jsstring) : jsstring :=
  match template with
  | [] => []
  | c :: t =>
      if (c =? 36)%N then
        match t with
        | [] => [c]
        | d :: t' =>
            if (d =? 36)%N then
              36%N :: GetSubstitution matched str position t'
            else if (d =? 96)%N then
              firstn position str ++ GetSubstitution matched str position t'
            else if (d =? 38)%N then
              matched ++ GetSubstitution matched str position t'
            else if (d =? 39)%N then
              skipn (position + List.length matched) str
                ++ GetSubstitution matched str position t'
            else c :: GetSubstitution matched str position t
        end
      else c :: GetSubstitution matched str position t
  end.

(** Building the result of the replace from the matches. *)
Fixpoint splice (input value : jsstring) (matchLength : nat)
  (positions : list nat) (nextSourcePosition : nat) : jsstring :=
  match positions with
  | [] => skipn nextSourcePosition input
  | position :: rest =>
      let matched := firstn matchLength (skipn position input) in
      firstn (position - nextSourcePosition) (skipn nextSourcePosition input)
        ++ GetSubstitution matched input position value
        ++ splice input value matchLength rest (position + matchLength)
  end.

(** [input.replace(/\bname\b/g, value)] for a name without syntax
    characters. *)
Definition replace_word (name input value : jsstring) : jsstring :=
  splice input value (List.length name) (match_positions name input) 0.

(** Names made of word characters only, and bodies in which no dollar
    sign stands. *)
Definition is_word_name (name : jsstring) : bool :=
  negb (is_empty name) && forallb is_word_char name.

Definition dollar_free (value : jsstring) : bool :=
  forallb (fun c => negb (c =? 36)%N) value.

(** In the words of the specification: the name occurs in the text at
    index [i] as a standalone token, bounded on each side by a code unit
    that is not a word character or by an edge of the text. *)
Definition not_word_unit (text : jsstring) (e : nat) : Prop :=
  forall c, nth_error text e = Some c -> is_word_char c = false.

Definition standalone_at (name text : jsstring) (i : nat) : Prop :=
  firstn (List.length name) (skipn i text) = name
  /\ match i with O => True | S p => not_word_unit text p end
  /\ not_word_unit text (i + List.length name).

(** The text with [body] written over the [n] code units at each of the
    given positions, everything else kept. *)
Fixpoint put_body (text body : jsstring) (n : nat) (positions : list nat)
  (from : nat) : jsstring :=
  match positions with
  | [] => skipn from text
  | p :: rest =>
      firstn (p - from) (skipn from text) ++ body
        ++ put_body text body n rest (p + n)
  end.

(** ** The component *)

Record reduction : Type := { from : jsstring; to : jsstring }.

Record State : Type := {
  expression : jsstring;
  error : option jsstring;
  loading : bool;
  savedExpressions : object;
  newExpressionName : jsstring;
  newExpressionValue : jsstring;
  history : list reduction
}.

Definition initial : State := {|
  expression := js "(λx.x) y";
  error := None;
  loading := true;
  savedExpressions := [];
  newExpressionName := [];
  newExpressionValue := [];
  history := []
|}.

Definition setError (m : option jsstring) (s : State) : State := {|
  expression := expression s;
  error := m;
  loading := loading s;
  savedExpressions := savedExpressions s;
  newExpressionName := newExpressionName s;
  newExpressionValue := newExpressionValue s;
  history := history s
|}.

Definition setExpression (e : jsstring) (s : State) : State := {|
  expression := e;
  error := error s;
  loading := loading s;
  savedExpressions := savedExpressions s;
  newExpressionName := newExpressionName s;
  newExpressionValue := newExpressionValue s;
  history := history s
|}.

Definition setLoading (b : bool) (s : State) : State := {|
  expression := expression s;
  error := error s;
  loading := b;
  savedExpressions := savedExpressions s;
  newExpressionName := newExpressionName s;
  newExpressionValue := newExpressionValue s;
  history := history s
|}.

Definition setSavedExpressions (o : object) (s : State) : State := {|
  expression := expression s;
  error := error s;
  loading := loading s;
  savedExpressions := o;
  newExpressionName := newExpressionName s;
  newExpressionValue := newExpressionValue s;
  history := history s
|}.

Definition setNewExpressionName (n : jsstring) (s : State) : State := {|
  expression := expression s;
  error := error s;
  loading := loading s;
  savedExpressions := savedExpressions s;
  newExpressionName := n;
  newExpressionValue := newExpressionValue s;
  history := history s
|}.

Definition setNewExpressionValue (v : jsstring) (s : State) : State := {|
  expression := expression s;
  error := error s;
  loading := loading s;
  savedExpressions := savedExpressions s;
  newExpressionName := newExpressionName s;
  newExpressionValue := v;
  history := history s
|}.

Definition setHistory (h : list reduction) (s : State) : State := {|
  expression := expression s;
  error := error s;
  loading := loading s;
  savedExpressions := savedExpressions s;
  newExpressionName := newExpressionName s;
  newExpressionValue := newExpressionValue s;
  history := h
|}.

(** What [localStorage.getItem('savedExpressions')] holds when the module
    has loaded: nothing, the JSON text of an object with the given string
    members in textual order, or a text [JSON.parse] rejects. *)
Inductive stored : Type :=
| NoRecord
| Members (members : list entry)
| Malformed (message : jsstring).

(** [JSON.parse] creates the members in textual order; a repeated key
    overwrites the value of the first. *)
Definition JSON_parse (members : list entry) : object :=
  fold_left (fun acc e => obj_set acc (fst e) (snd e)) members [].

Inductive event : Type :=
| WasmReady (saved : stored)
| WasmFailed (message : jsstring)
| ChangeExpression (text : jsstring)
| ChangeName (text : jsstring)
| ChangeValue (text : jsstring)
| ClickBetaReduce
| ClickSave
| ClickDelete (name : jsstring)
| ClickUse (value : jsstring)
| ClickClearHistory.

Section App.

(** The reducer imported from the WebAssembly module: it returns a string
    or throws; a thrown value is kept as the string it converts to. *)
Variable next_beta_reduction_wasm : jsstring -> completion jsstring.

(** [input.replace(new RegExp(`\\b${name}\\b`, 'g'), value)] for a name
    that contains syntax characters, as [regexp_replace name input value]:
    the constructor may throw a SyntaxError, and a pattern that compiles
    matches what the syntax means.  That part of the engine is not
    modelled. *)
Variable regexp_replace : jsstring -> jsstring -> jsstring -> completion jsstring.

(** One iteration of the [forEach] of [replaceNamedExpressions]. *)
Definition replace_entry (result : jsstring) (e : entry) : completion jsstring :=
  let (name, value) := e in
  if literal_source name
  then Normal (replace_word name result value)
  else regexp_replace name result value.

Fixpoint replace_entries (entries : list entry) (result : jsstring)
  : completion jsstring :=
  match entries with
  | [] => Normal result
  | e :: rest =>
      match replace_entry result e with
      | Normal result' => replace_entries rest result'
      | Throw err => Throw err
      end
  end.

Definition replaceNamedExpressions (saved : object) (expr : jsstring)
  : completion jsstring :=
  replace_entries (Object_entries saved) expr.

Definition handleBetaReduce (s : State) : State :=
  match replaceNamedExpressions (savedExpressions s) (expression s) with
  | Throw err => setError (Some (js "Error: " ++ err)) s
  | Normal replacedExpression =>
      match next_beta_reduction_wasm replacedExpression with
      | Throw err => setError (Some (js "Error: " ++ err)) s
      | Normal result =>
          if str_eqb result (expression s)
          then setError (Some (js "No further reduction possible.")) s
          else
            setError None
              (setExpression result
                 (setHistory
                    (history s ++ [{| from := expression s; to := result |}])
                    s))
      end
  end.

Definition saveExpression (s : State) : State :=
  if is_empty (trim (newExpressionName s))
     || is_empty (trim (newExpressionValue s))
  then setError (Some (js "Both name and expression are required")) s
  else
    setError None
      (setNewExpressionValue []
         (setNewExpressionName []
            (setSavedExpressions
               (obj_set (spread (savedExpressions s))
                  (trim (newExpressionName s))
                  (trim (newExpressionValue s)))
               s))).

Definition deleteExpression (name : jsstring) (s : State) : State :=
  let newExpressions := spread (savedExpressions s) in
  setSavedExpressions (obj_delete newExpressions name) s.

Definition applyExpression (expr : jsstring) (s : State) : State :=
  setExpression expr s.

Definition clearHistory (s : State) : State :=
  setHistory [] s.

(** The effect that runs once the module is initialised. *)
Definition initialised (saved : stored) (s : State) : State :=
  match saved with
  | NoRecord => setLoading false s
  | Members members =>
      setSavedExpressions (JSON_parse members) (setLoading false s)
  | Malformed message =>
      setError (Some (js "Failed to initialize WASM module: " ++ message))
        (setLoading false s)
  end.

Definition handle (ev : event) (s : State) : State :=
  match ev with
  | WasmReady saved => initialised saved s
  | WasmFailed message =>
      setError (Some (js "Failed to initialize WASM module: " ++ message)) s
  | ChangeExpression text => setExpression text s
  | ChangeName text => setNewExpressionName text s
  | ChangeValue text => setNewExpressionValue text s
  | ClickBetaReduce => handleBetaReduce s
  | ClickSave => saveExpression s
  | ClickDelete name => deleteExpression name s
  | ClickUse value => applyExpression value s
  | ClickClearHistory => clearHistory s
  end.

Definition run (evs : list event) (s : State) : State :=
  fold_left (fun st ev => handle ev st) evs s.

(** The states the component can be in. *)
Inductive reachable : State -> Prop :=
| reachable_initial : reachable initial
| reachable_handle ev s : reachable s -> reachable (handle ev s).

End App.

(** The store operation [save(name, body)]: the two fields are filled in
    and the Save button is clicked. *)
Definition save (name body : jsstring) (s : State) : State :=
  saveExpression (setNewExpressionValue body (setNewExpressionName name s)).

(** The library [{ k1: v1, ... }] written as an object literal. *)
Definition library (members : list (string * string)) : object :=
  fold_left (fun acc e => obj_set acc (js (fst e)) (js (snd e))) members [].


(** Stand-ins for the reducer and for the part of the engine left open,
    used where a statement is checked on a concrete run. *)
Definition echo_reducer : jsstring -> completion jsstring :=
  fun expr => Normal expr.

Definition identity_reducer : jsstring -> completion jsstring :=
  fun expr =>
    if str_eqb expr (js "(λx.x) y") then Normal (js "y") else Normal expr.

Definition failing_reducer : jsstring -> completion jsstring :=
  fun _ => Throw (js "unexpected token").

Definition no_engine : jsstring -> jsstring -> jsstring -> completion jsstring :=
  fun _ _ _ => Throw (js "SyntaxError: Invalid regular expression").

(** A string that is not empty and has no white space at either end. *)
Definition no_outer_space (t : jsstring) : Prop :=
  t <> []
  /\ (forall c r, t = c :: r -> is_whitespace c = false)
  /\ (forall r c, t = r ++ [c] -> is_whitespace c = false).

(** The entries whose name is an array index not above [n]. *)
Definition index_at_most (n : N) (e : entry) : bool :=
  is_index e && (index_of e <=? n)%N.

(** ** What is shown, and what is kept between sessions *)


(** A history whose entries follow one another: each entry starts from
    the result of the one before it, and the last one ends in [current]. *)
Fixpoint linked (h : list reduction) (current : jsstring) : Prop :=
  match h with
  | [] => True
  | r :: rest =>
      match rest with
      | [] => to r = current
      | r' :: _ => to r = from r' /\ linked rest current
      end
  end.

(** The events whose handlers do not write the expression from outside a
    reduction: all but typing into the text area and the Use button. *)
Definition keeps_expression (ev : event) : bool :=
  match ev with
  | ChangeExpression _ | ClickUse _ => false
  | _ => true
  end.

(** The effect on [savedExpressions]: a library with at least one key is
    written to the store, as the members [JSON.stringify] lists (the
    enumeration order); an empty library is not written. *)
Definition storage_effect (o : object) (store : stored) : stored :=
  match Object_entries o with
  | [] => store
  | _ :: _ => Members (Object_entries o)
  end.

Section Session.

Variable next_beta_reduction_wasm : jsstring -> completion jsstring.
Variable regexp_replace : jsstring -> jsstring -> jsstring -> completion jsstring.

(** One event of a session that runs against a store.  The effect runs
    after the handlers that call [setSavedExpressions]: the load of a
    record, an accepted save, a delete.  When the module is ready it is
    the store that [getItem] reads (the payload of the event is not used
    here). *)
Definition session_handle (ev : event) (w : State * stored) : State * stored :=
  let (s, store) := w in
  match ev with
  | WasmReady _ =>
      let s' := initialised store s in
      match store with
      | Members _ => (s', storage_effect (savedExpressions s') store)
      | _ => (s', store)
      end
  | ClickSave =>
      let s' := saveExpression s in
      if is_empty (trim (newExpressionName s))
         || is_empty (trim (newExpressionValue s))
      then (s', store)
      else (s', storage_effect (savedExpressions s') store)
  | ClickDelete name =>
      let s' := deleteExpression name s in
      (s', storage_effect (savedExpressions s') store)
  | _ => (handle next_beta_reduction_wasm regexp_replace ev s, store)
  end.

Definition session_run (evs : list event) (w : State * stored)
  : State * stored :=
  fold_left (fun st ev => session_handle ev st) evs w.

End Session.

(** The stored copy is the library whenever the library has entries. *)
Definition store_in_step (w : State * stored) : Prop :=
  Object_entries (savedExpressions (fst w)) = []
  \/ snd w = Members (Object_entries (savedExpressions (fst w))).

(** * Properties *)

(** ** Strings *)

Example js_code_units : js "λx.x Ω" = [955; 120; 46; 120; 32; 937]%N.
Proof. reflexivity. Qed.

Example trim_both_ends : trim (js "  id ") = js "id".
Proof. reflexivity. Qed.

Example entries_order :
  Object_entries (library [("b", "1"); ("10", "2"); ("a", "3"); ("2", "4")]%string)
  = [(js "2", js "4"); (js "10", js "2"); (js "b", js "1"); (js "a", js "3")].
Proof. reflexivity. Qed.

Example replace_each_token :
  replace_word (js "foo") (js "foo foo(foo) xfoo foo_ foo") (js "baz")
  = js "baz baz(baz) xfoo foo_ baz".
Proof. reflexivity. Qed.

Example replace_empty_name :
  replace_word [] (js "ab cd") (js "-") = js "-ab- -cd-".
Proof. reflexivity. Qed.

Lemma str_eqb_eq (a b : jsstring) : str_eqb a b = true <-> a = b.
Proof.
  revert b; induction a as [|x a IH]; intros [|y b]; simpl;
    try (split; [discriminate | congruence]); try tauto.
  rewrite andb_true_iff, N.eqb_eq, IH.
  split; [intros [-> ->]; reflexivity | intros H; inversion H; auto].
Qed.

Lemma str_eqb_refl (a : jsstring) : str_eqb a a = true.
Proof. apply str_eqb_eq; reflexivity. Qed.

Lemma str_eqb_neq (a b : jsstring) : str_eqb a b = false <-> a <> b.
Proof.
  rewrite <- str_eqb_eq. destruct (str_eqb a b); split; congruence.
Qed.

Lemma is_empty_false (s : jsstring) : is_empty s = false <-> s <> [].
Proof. destruct s; simpl; split; congruence. Qed.

(** ** Objects *)

Section ObjectFacts.

Lemma filter_all (A : Type) (p : A -> bool) (l : list A) :
  Forall (fun x => p x = true) l -> filter p l = l.
Proof.
  induction 1 as [|x l Hx _ IH]; simpl; [reflexivity|].
  rewrite Hx, IH; reflexivity.
Qed.

Lemma filter_none (A : Type) (p : A -> bool) (l : list A) :
  Forall (fun x => p x = false) l -> filter p l = [].
Proof.
  induction 1 as [|x l Hx _ IH]; simpl; [reflexivity|].
  rewrite Hx, IH; reflexivity.
Qed.

Lemma filter_split_perm (A : Type) (p : A -> bool) (l : list A) :
  Permutation (filter p l ++ filter (fun x => negb (p x)) l) l.
Proof.
  induction l as [|x l IH]; simpl; [constructor|].
  destruct (p x); simpl.
  - constructor; exact IH.
  - symmetry. apply Permutation_cons_app. symmetry; exact IH.
Qed.

Lemma insert_index_perm (e : entry) (l : list entry) :
  Permutation (insert_index e l) (e :: l).
Proof.
  induction l as [|x l IH]; simpl; [reflexivity|].
  destruct (index_of e <=? index_of x)%N; [reflexivity|].
  rewrite IH. apply perm_swap.
Qed.

Lemma sort_index_perm (l : list entry) : Permutation (sort_index l) l.
Proof.
  induction l as [|x l IH]; simpl; [constructor|].
  rewrite insert_index_perm. constructor; exact IH.
Qed.

Lemma insert_index_sorted (e : entry) (l : list entry) :
  StronglySorted index_le l -> StronglySorted index_le (insert_index e l).
Proof.
  induction 1 as [|x l Hs IH Hx]; simpl.
  - repeat constructor.
  - destruct (index_of e <=? index_of x)%N eqn:E.
    + apply N.leb_le in E. constructor.
      * constructor; assumption.
      * constructor; [exact E|].
        eapply Forall_impl; [|exact Hx].
        unfold index_le; intros; lia.
    + apply N.leb_gt in E. constructor; [exact IH|].
      rewrite (insert_index_perm e l). constructor; [|exact Hx].
      unfold index_le; lia.
Qed.

Lemma sort_index_sorted (l : list entry) :
  StronglySorted index_le (sort_index l).
Proof.
  induction l; simpl; [constructor | apply insert_index_sorted; assumption].
Qed.

Lemma sort_index_of_sorted (l : list entry) :
  StronglySorted index_le l -> sort_index l = l.
Proof.
  induction 1 as [|x l Hs IH Hx]; simpl; [reflexivity|].
  rewrite IH. destruct Hx as [|y l Hy _]; simpl; [reflexivity|].
  apply N.leb_le in Hy. rewrite Hy. reflexivity.
Qed.

Lemma filter_sorted (p : entry -> bool) (l : list entry) :
  StronglySorted index_le l -> StronglySorted index_le (filter p l).
Proof.
  induction 1 as [|x l Hs IH Hx]; simpl; [constructor|].
  destruct (p x); [|exact IH].
  constructor; [exact IH|].
  rewrite Forall_forall in *. intros y Hy.
  apply filter_In in Hy. apply Hx, Hy.
Qed.

(** A list made of sorted array-index entries followed by entries with
    other keys is enumerated as it stands. *)
Lemma entries_of_parts (ix rest : list entry) :
  Forall (fun e => is_index e = true) ix ->
  StronglySorted index_le ix ->
  Forall (fun e => is_index e = false) rest ->
  Object_entries (ix ++ rest) = ix ++ rest.
Proof.
  intros Hix Hs Hrest. unfold Object_entries.
  rewrite !filter_app.
  rewrite (filter_all _ Hix), (filter_none _ Hrest), app_nil_r.
  rewrite sort_index_of_sorted by exact Hs.
  rewrite (@filter_none _ (fun e => negb (is_index e)) ix).
  - rewrite (@filter_all _ (fun e => negb (is_index e)) rest); [reflexivity|].
    eapply Forall_impl; [|exact Hrest]. simpl; intros e ->; reflexivity.
  - eapply Forall_impl; [|exact Hix]. simpl; intros e ->; reflexivity.
Qed.

Lemma index_part_all (o : list entry) :
  Forall (fun e => is_index e = true) (sort_index (filter is_index o)).
Proof.
  rewrite Forall_forall. intros e He.
  apply (Permutation_in _ (sort_index_perm _)) in He.
  apply filter_In in He. apply He.
Qed.

Lemma other_part_all (o : list entry) :
  Forall (fun e => is_index e = false)
         (filter (fun e => negb (is_index e)) o).
Proof.
  rewrite Forall_forall. intros e He.
  apply filter_In in He. destruct He as [_ He].
  apply negb_true_iff in He. exact He.
Qed.

Lemma entries_idem (o : list entry) :
  Object_entries (Object_entries o) = Object_entries o.
Proof.
  unfold Object_entries at 2 3.
  apply entries_of_parts.
  - apply index_part_all.
  - apply sort_index_sorted.
  - apply other_part_all.
Qed.

Lemma entries_perm (o : list entry) : Permutation (Object_entries o) o.
Proof.
  unfold Object_entries. rewrite sort_index_perm. apply filter_split_perm.
Qed.

Lemma entries_filter (p : entry -> bool) (o : list entry) :
  Object_entries (filter p (Object_entries o)) = filter p (Object_entries o).
Proof.
  unfold Object_entries at 2 3. rewrite filter_app.
  apply entries_of_parts.
  - rewrite Forall_forall. intros e He. apply filter_In in He.
    pose proof (index_part_all o) as H. rewrite Forall_forall in H.
    apply H, He.
  - apply filter_sorted, sort_index_sorted.
  - rewrite Forall_forall. intros e He. apply filter_In in He.
    pose proof (other_part_all o) as H. rewrite Forall_forall in H.
    apply H, He.
Qed.

Lemma entries_snoc_other (o : list entry) (e : entry) :
  is_index e = false ->
  Object_entries (Object_entries o ++ [e]) = Object_entries o ++ [e].
Proof.
  intros He. unfold Object_entries at 2 3. rewrite <- app_assoc.
  apply entries_of_parts.
  - apply index_part_all.
  - apply sort_index_sorted.
  - apply Forall_app. split; [apply other_part_all|].
    constructor; [exact He | constructor].
Qed.

Lemma has_key_true (k : jsstring) (o : list entry) :
  has_key k o = true <-> In k (keys o).
Proof.
  unfold has_key, keys. rewrite existsb_exists, in_map_iff.
  split; intros [e [H1 H2]]; exists e.
  - apply str_eqb_eq in H2. tauto.
  - rewrite H1, str_eqb_refl. tauto.
Qed.

Lemma has_key_false (k : jsstring) (o : list entry) :
  has_key k o = false <-> ~ In k (keys o).
Proof.
  rewrite <- has_key_true. destruct (has_key k o); split; congruence.
Qed.

Lemma overwrite_fst (k v : jsstring) (e : entry) : fst (overwrite k v e) = fst e.
Proof. unfold overwrite. destruct (str_eqb (fst e) k); reflexivity. Qed.

Lemma keys_map_same (f : entry -> entry) (l : list entry) :
  (forall e, fst (f e) = fst e) -> keys (map f l) = keys l.
Proof.
  intros Hf. unfold keys. rewrite map_map. apply map_ext. exact Hf.
Qed.

Lemma obj_set_old (o : list entry) (k v : jsstring) :
  In k (keys o) -> obj_set o k v = map (overwrite k v) o.
Proof.
  intros H. apply has_key_true in H. unfold obj_set. rewrite H. reflexivity.
Qed.

Lemma obj_set_new (o : list entry) (k v : jsstring) :
  ~ In k (keys o) -> obj_set o k v = o ++ [(k, v)].
Proof.
  intros H. apply has_key_false in H. unfold obj_set. rewrite H. reflexivity.
Qed.

Lemma obj_set_wf (o : list entry) (k v : jsstring) :
  wf_object o -> wf_object (obj_set o k v).
Proof.
  unfold wf_object. intros Ho.
  destruct (has_key k o) eqn:E.
  - apply has_key_true in E. rewrite obj_set_old by exact E.
    rewrite keys_map_same by apply overwrite_fst. exact Ho.
  - apply has_key_false in E. rewrite obj_set_new by exact E.
    unfold keys in *. rewrite map_app. simpl.
    apply Permutation_NoDup with (l := k :: map fst o).
    + apply Permutation_cons_append.
    + constructor; assumption.
Qed.

Lemma define_all_wf (l acc : list entry) :
  wf_object acc ->
  wf_object (fold_left (fun a e => obj_set a (fst e) (snd e)) l acc).
Proof.
  revert acc; induction l as [|e l IH]; simpl; intros acc H; [exact H|].
  apply IH, obj_set_wf, H.
Qed.

Lemma define_all_fresh (l acc : list entry) :
  NoDup (keys (acc ++ l)) ->
  fold_left (fun a e => obj_set a (fst e) (snd e)) l acc = acc ++ l.
Proof.
  revert acc; induction l as [|[k v] l IH]; simpl; intros acc H.
  - rewrite app_nil_r; reflexivity.
  - assert (Hk : ~ In k (keys acc)).
    { unfold keys in *. rewrite map_app in H. simpl in H.
      apply NoDup_remove_2 in H. intros Hin. apply H.
      apply in_or_app; left; exact Hin. }
    rewrite obj_set_new by exact Hk.
    rewrite IH; rewrite <- app_assoc; simpl; [reflexivity | exact H].
Qed.

Lemma entries_wf (o : object) : wf_object o -> wf_object (Object_entries o).
Proof.
  unfold wf_object, keys. intros H.
  eapply Permutation_NoDup; [|exact H].
  apply Permutation_map. symmetry. apply entries_perm.
Qed.

Lemma keys_entries (o : object) (k : jsstring) :
  In k (keys (Object_entries o)) <-> In k (keys o).
Proof.
  unfold keys. split; apply Permutation_in, Permutation_map.
  - apply entries_perm.
  - symmetry; apply entries_perm.
Qed.

(** Copying an object with the spread syntax keeps what is enumerated. *)
Lemma spread_entries (o : object) :
  wf_object o -> spread o = Object_entries o.
Proof.
  intros H. unfold spread.
  rewrite define_all_fresh; [reflexivity|].
  simpl. apply entries_wf, H.
Qed.

Lemma spread_wf (o : object) : wf_object (spread o).
Proof. apply define_all_wf. constructor. Qed.

Lemma obj_delete_wf (o : object) (k : jsstring) :
  wf_object o -> wf_object (obj_delete o k).
Proof.
  unfold wf_object, obj_delete, keys.
  induction o as [|e o IH]; simpl; intros H; [constructor|].
  inversion H as [|? ? Hn Hd]; subst.
  destruct (negb (str_eqb (fst e) k)); simpl; [|apply IH, Hd].
  constructor; [|apply IH, Hd].
  intros Hin. apply Hn. apply in_map_iff in Hin.
  destruct Hin as [x [Hx Hin]]. apply filter_In in Hin.
  apply in_map_iff. exists x. tauto.
Qed.

Lemma insert_index_map (f : entry -> entry) (e : entry) (l : list entry) :
  (forall x, fst (f x) = fst x) ->
  insert_index (f e) (map f l) = map f (insert_index e l).
Proof.
  intros Hf. induction l as [|x l IH]; simpl; [reflexivity|].
  unfold index_of at 1 2. rewrite !Hf. fold (index_of e) (index_of x).
  destruct (index_of e <=? index_of x)%N; simpl; [reflexivity|].
  rewrite IH; reflexivity.
Qed.

Lemma entries_map (f : entry -> entry) (l : list entry) :
  (forall x, fst (f x) = fst x) ->
  Object_entries (map f l) = map f (Object_entries l).
Proof.
  intros Hf.
  assert (Hi : forall x, is_index (f x) = is_index x).
  { intros x. unfold is_index. rewrite Hf. reflexivity. }
  assert (Hfilter : forall p : entry -> bool, (forall x, p (f x) = p x) ->
            filter p (map f l) = map f (filter p l)).
  { intros p Hp. induction l as [|x l IH]; simpl; [reflexivity|].
    rewrite Hp. destruct (p x); simpl; rewrite IH; reflexivity. }
  unfold Object_entries. rewrite map_app.
  rewrite !Hfilter by (intros; rewrite ?Hi; reflexivity).
  f_equal. induction (filter is_index l) as [|x l' IH]; simpl; [reflexivity|].
  rewrite IH. apply insert_index_map, Hf.
Qed.

End ObjectFacts.

(** ** The library operations *)

Section LibraryFacts.

Variable next_beta_reduction_wasm : jsstring -> completion jsstring.
Variable regexp_replace : jsstring -> jsstring -> jsstring -> completion jsstring.

Lemma handleBetaReduce_library (s : State) :
  savedExpressions (handleBetaReduce next_beta_reduction_wasm regexp_replace s)
  = savedExpressions s.
Proof.
  unfold handleBetaReduce.
  destruct (replaceNamedExpressions _ _ _) as [r|]; [|reflexivity].
  destruct (next_beta_reduction_wasm r) as [r'|]; [|reflexivity].
  destruct (str_eqb r' (expression s)); reflexivity.
Qed.

Lemma saveExpression_wf (s : State) :
  wf_object (savedExpressions s) ->
  wf_object (savedExpressions (saveExpression s)).
Proof.
  intros H. unfold saveExpression.
  destruct (is_empty _ || is_empty _); simpl; [exact H|].
  apply obj_set_wf, spread_wf.
Qed.

Lemma handle_wf (ev : event) (s : State) :
  wf_object (savedExpressions s) ->
  wf_object
    (savedExpressions (handle next_beta_reduction_wasm regexp_replace ev s)).
Proof.
  intros H. destruct ev as [[| members |]| | | | | | | | |]; simpl; try exact H.
  - apply define_all_wf. constructor.
  - rewrite handleBetaReduce_library. exact H.
  - apply saveExpression_wf, H.
  - apply obj_delete_wf, spread_wf.
Qed.

Lemma reachable_wf (s : State) :
  reachable next_beta_reduction_wasm regexp_replace s ->
  wf_object (savedExpressions s).
Proof.
  induction 1 as [|ev s _ IH]; [constructor | apply handle_wf, IH].
Qed.


Lemma saveExpression_accepts (s : State) :
  trim (newExpressionName s) <> [] ->
  trim (newExpressionValue s) <> [] ->
  saveExpression s =
  setError None
    (setNewExpressionValue []
       (setNewExpressionName []
          (setSavedExpressions
             (obj_set (spread (savedExpressions s))
                (trim (newExpressionName s)) (trim (newExpressionValue s)))
             s))).
Proof.
  intros Hn Hv. unfold saveExpression.
  apply is_empty_false in Hn, Hv. rewrite Hn, Hv. reflexivity.
Qed.

Lemma saved_after_save_old (s : State) :
  wf_object (savedExpressions s) ->
  trim (newExpressionName s) <> [] ->
  trim (newExpressionValue s) <> [] ->
  In (trim (newExpressionName s)) (keys (savedExpressions s)) ->
  savedExpressions (saveExpression s) =
  map (overwrite (trim (newExpressionName s)) (trim (newExpressionValue s)))
      (Object_entries (savedExpressions s)).
Proof.
  intros Hwf Hn Hv Hin. rewrite saveExpression_accepts by assumption. simpl.
  rewrite spread_entries by exact Hwf.
  apply obj_set_old. apply keys_entries, Hin.
Qed.

Lemma saved_after_save_new (s : State) :
  wf_object (savedExpressions s) ->
  trim (newExpressionName s) <> [] ->
  trim (newExpressionValue s) <> [] ->
  ~ In (trim (newExpressionName s)) (keys (savedExpressions s)) ->
  savedExpressions (saveExpression s) =
  Object_entries (savedExpressions s)
    ++ [(trim (newExpressionName s), trim (newExpressionValue s))].
Proof.
  intros Hwf Hn Hv Hin. rewrite saveExpression_accepts by assumption. simpl.
  rewrite spread_entries by exact Hwf.
  apply obj_set_new. rewrite keys_entries. exact Hin.
Qed.

Lemma saved_after_delete (name : jsstring) (s : State) :
  wf_object (savedExpressions s) ->
  savedExpressions (deleteExpression name s) =
  filter (fun e => negb (str_eqb (fst e) name))
         (Object_entries (savedExpressions s)).
Proof.
  intros Hwf. unfold deleteExpression. simpl.
  rewrite spread_entries by exact Hwf. reflexivity.
Qed.

Lemma filter_absent_key (k : jsstring) (l : list entry) :
  ~ In k (keys l) ->
  filter (fun e => negb (str_eqb (fst e) k)) l = l.
Proof.
  intros H. apply filter_all. rewrite Forall_forall. intros e He.
  apply negb_true_iff, str_eqb_neq. intros Hk. apply H.
  rewrite <- Hk. unfold keys. apply in_map, He.
Qed.

End LibraryFacts.

Lemma save_then_delete_new (name body : jsstring) (s : State) :
  wf_object (savedExpressions s) ->
  trim name <> [] ->
  trim body <> [] ->
  ~ In (trim name) (keys (savedExpressions s)) ->
  array_index (trim name) = None ->
  Object_entries
    (savedExpressions (deleteExpression (trim name) (save name body s)))
  = Object_entries (savedExpressions s).
Proof.
  intros Hwf Hn Hb Hnew Hix. unfold save.
  set (s1 := setNewExpressionValue body (setNewExpressionName name s)).
  assert (Hsaved : savedExpressions (saveExpression s1)
                   = Object_entries (savedExpressions s) ++ [(trim name, trim body)]).
  { apply (saved_after_save_new s1); assumption. }
  rewrite saved_after_delete.
  - rewrite Hsaved.
    rewrite entries_snoc_other by (unfold is_index; simpl; rewrite Hix; reflexivity).
    rewrite filter_app. simpl. rewrite str_eqb_refl. simpl. rewrite app_nil_r.
    rewrite filter_absent_key; [apply entries_idem|].
    rewrite keys_entries. exact Hnew.
  - apply saveExpression_wf. exact Hwf.
Qed.

Lemma save_wf (name body : jsstring) (s : State) :
  wf_object (savedExpressions s) ->
  wf_object (savedExpressions (save name body s)).
Proof. intros H. unfold save. apply saveExpression_wf. exact H. Qed.

Lemma initial_wf : wf_object (savedExpressions initial).
Proof. constructor. Qed.

(** ** Claims about the library *)

(** C6 (as amended): for every library that has no entry named [id],
    [save("id", "λx.x")] followed by [delete("id")] gives back the entries
    the library had before the save, in the same order. *)
Theorem save_then_delete_restores (s : State) :
  wf_object (savedExpressions s) ->
  ~ In (js "id") (keys (savedExpressions s)) ->
  Object_entries
    (savedExpressions
       (deleteExpression (js "id") (save (js "id") (js "λx.x") s)))
  = Object_entries (savedExpressions s).
Proof.
  intros Hwf Hnew.
  apply (@save_then_delete_new (js "id") (js "λx.x") s Hwf);
    [discriminate | discriminate | exact Hnew | reflexivity].
Qed.

Lemma save_then_delete_restores_witness :
  let s := save (js "zero") (js "λf.λx.x") (save (js "2") (js "λf.λx.f (f x)") initial) in
  wf_object (savedExpressions s)
  /\ ~ In (js "id") (keys (savedExpressions s))
  /\ Object_entries
       (savedExpressions
          (deleteExpression (js "id") (save (js "id") (js "λx.x") s)))
     = Object_entries (savedExpressions s).
Proof.
  intros s.
  assert (Hwf : wf_object (savedExpressions s)).
  { unfold s. repeat apply save_wf. apply initial_wf. }
  assert (Hnew : ~ In (js "id") (keys (savedExpressions s))).
  { vm_compute. intros [H | [H | []]]; discriminate H. }
  split; [exact Hwf | split; [exact Hnew|]].
  apply (save_then_delete_restores s Hwf Hnew).
Defined.

(** C6 as stated fails when the library already has an entry [id]: the save
    overwrites it and the delete removes it. *)
Lemma save_then_delete_drops_existing :
  let s := save (js "id") (js "z") initial in
  Object_entries (savedExpressions s) = [(js "id", js "z")]
  /\ Object_entries
       (savedExpressions
          (deleteExpression (js "id") (save (js "id") (js "λx.x") s)))
     <> Object_entries (savedExpressions s).
Proof.
  split; [reflexivity|]. vm_compute. discriminate.
Qed.

(** C10: [deleteExpression name] removes the entry named [name] and nothing
    else: the other entries keep their bodies and their order, and the
    expression, the history, the message and the two input fields are
    untouched, whether or not the name was there. *)
Theorem delete_frame (name : jsstring) (s : State) :
  wf_object (savedExpressions s) ->
  Object_entries (savedExpressions (deleteExpression name s))
  = filter (fun e => negb (str_eqb (fst e) name))
           (Object_entries (savedExpressions s))
  /\ expression (deleteExpression name s) = expression s
  /\ history (deleteExpression name s) = history s
  /\ error (deleteExpression name s) = error s
  /\ newExpressionName (deleteExpression name s) = newExpressionName s
  /\ newExpressionValue (deleteExpression name s) = newExpressionValue s
  /\ loading (deleteExpression name s) = loading s.
Proof.
  intros Hwf. split; [|repeat split].
  rewrite saved_after_delete by exact Hwf. apply entries_filter.
Qed.

Lemma delete_frame_witness :
  let s := setError (Some (js "No further reduction possible."))
             (save (js "b") (js "y") (save (js "1") (js "z")
                (save (js "a") (js "x") initial))) in
  wf_object (savedExpressions s)
  /\ Object_entries (savedExpressions (deleteExpression (js "1") s))
     = [(js "a", js "x"); (js "b", js "y")]
  /\ error (deleteExpression (js "1") s) = error s.
Proof.
  intros s.
  assert (Hwf : wf_object (savedExpressions s)).
  { unfold s, setError. cbn [savedExpressions].
    repeat apply save_wf. apply initial_wf. }
  split; [exact Hwf|].
  destruct (delete_frame (js "1") s Hwf) as [He [_ [_ [Hm _]]]].
  split; [rewrite He; reflexivity | exact Hm].
Defined.

Section SaveFacts.

Variable next_beta_reduction_wasm : jsstring -> completion jsstring.
Variable regexp_replace : jsstring -> jsstring -> jsstring -> completion jsstring.

Lemma reachable_save (name body : jsstring) (s : State) :
  reachable next_beta_reduction_wasm regexp_replace s ->
  reachable next_beta_reduction_wasm regexp_replace (save name body s).
Proof.
  intros H.
  change (save name body s)
    with (handle next_beta_reduction_wasm regexp_replace ClickSave
            (handle next_beta_reduction_wasm regexp_replace (ChangeValue body)
               (handle next_beta_reduction_wasm regexp_replace (ChangeName name) s))).
  repeat constructor. exact H.
Qed.

(** C7 (as amended): in every state the component can reach the entries
    have pairwise different names, before and after a save, and are
    enumerated with the array-index names first, in ascending numeric
    order, and the other names after them; a save with non-empty trimmed
    name and body overwrites the body of an entry of that name where it
    stands, and puts a new name that is not an array index after all the
    entries there were. *)
Theorem save_upsert (s : State) (name body : jsstring) :
  reachable next_beta_reduction_wasm regexp_replace s ->
  trim name <> [] ->
  trim body <> [] ->
  NoDup (keys (Object_entries (savedExpressions s)))
  /\ NoDup (keys (Object_entries (savedExpressions (save name body s))))
  /\ (exists ix rest,
        Object_entries (savedExpressions s) = ix ++ rest
        /\ Forall (fun e => is_index e = true) ix
        /\ StronglySorted index_le ix
        /\ Forall (fun e => is_index e = false) rest)
  /\ (In (trim name) (keys (Object_entries (savedExpressions s))) ->
      Object_entries (savedExpressions (save name body s))
      = map (overwrite (trim name) (trim body))
            (Object_entries (savedExpressions s)))
  /\ (~ In (trim name) (keys (Object_entries (savedExpressions s))) ->
      array_index (trim name) = None ->
      Object_entries (savedExpressions (save name body s))
      = Object_entries (savedExpressions s) ++ [(trim name, trim body)]).
Proof.
  intros Hs Hn Hb.
  pose proof (reachable_wf Hs) as Hwf.
  pose proof (reachable_wf (reachable_save name body Hs)) as Hwf'.
  split; [apply entries_wf, Hwf|].
  split; [apply entries_wf, Hwf'|].
  split.
  { exists (sort_index (filter is_index (savedExpressions s))).
    exists (filter (fun e => negb (is_index e)) (savedExpressions s)).
    split; [reflexivity|].
    split; [apply index_part_all|].
    split; [apply sort_index_sorted | apply other_part_all]. }
  set (s1 := setNewExpressionValue body (setNewExpressionName name s)).
  split.
  - intros Hin. apply -> keys_entries in Hin. unfold save. fold s1.
    rewrite (@saved_after_save_old s1 Hwf Hn Hb Hin). cbn [newExpressionName
      newExpressionValue savedExpressions s1 setNewExpressionValue
      setNewExpressionName].
    rewrite entries_map by apply overwrite_fst.
    rewrite entries_idem. reflexivity.
  - intros Hnew Hix. rewrite keys_entries in Hnew. unfold save. fold s1.
    rewrite (@saved_after_save_new s1 Hwf Hn Hb Hnew). cbn [newExpressionName
      newExpressionValue savedExpressions s1 setNewExpressionValue
      setNewExpressionName].
    apply entries_snoc_other. unfold is_index. simpl. rewrite Hix. reflexivity.
Qed.

End SaveFacts.

Lemma save_upsert_witness :
  let s := save (js "b") (js "y") (save (js " a ") (js "x") initial) in
  reachable echo_reducer no_engine s
  /\ Object_entries (savedExpressions (save (js "a") (js "λx.x") s))
     = [(js "a", js "λx.x"); (js "b", js "y")]
  /\ Object_entries (savedExpressions (save (js "c") (js "z") s))
     = [(js "a", js "x"); (js "b", js "y"); (js "c", js "z")].
Proof.
  intros s.
  assert (Hs : reachable echo_reducer no_engine s).
  { unfold s. repeat apply reachable_save. constructor. }
  split; [exact Hs|]. split.
  - destruct (@save_upsert echo_reducer no_engine s (js "a") (js "λx.x") Hs)
      as [_ [_ [_ [Hold _]]]]; try discriminate.
    rewrite Hold; [reflexivity|]. vm_compute. left. reflexivity.
  - destruct (@save_upsert echo_reducer no_engine s (js "c") (js "z") Hs)
      as [_ [_ [_ [_ Hnew]]]]; try discriminate.
    rewrite Hnew; [reflexivity | | reflexivity].
    vm_compute. intros [H | [H | []]]; discriminate H.
Defined.

(** C7 as stated fails for a new name that is an array index: it is
    enumerated before the names that are not, whenever it was saved. *)
Lemma save_index_name_not_last :
  let s := save (js "a") (js "x") initial in
  reachable echo_reducer no_engine s
  /\ ~ In (js "1") (keys (Object_entries (savedExpressions s)))
  /\ Object_entries (savedExpressions (save (js "1") (js "y") s))
     = [(js "1", js "y"); (js "a", js "x")]
  /\ Object_entries (savedExpressions (save (js "1") (js "y") s))
     <> Object_entries (savedExpressions s) ++ [(js "1", js "y")].
Proof.
  intros s. split; [unfold s; apply reachable_save; constructor|].
  split; [vm_compute; intros [H | []]; discriminate H|].
  split; [reflexivity | vm_compute; discriminate].
Qed.

(** ** Claims about the reduction step *)

Section StepFacts.

Variable next_beta_reduction_wasm : jsstring -> completion jsstring.
Variable regexp_replace : jsstring -> jsstring -> jsstring -> completion jsstring.

Local Abbreviation step :=
  (handleBetaReduce next_beta_reduction_wasm regexp_replace).
Local Abbreviation expanded :=
  (replaceNamedExpressions regexp_replace).

Lemma step_returned (s : State) (x r : jsstring) :
  expanded (savedExpressions s) (expression s) = Normal x ->
  next_beta_reduction_wasm x = Normal r ->
  step s =
  if str_eqb r (expression s)
  then setError (Some (js "No further reduction possible.")) s
  else setError None
         (setExpression r
            (setHistory (history s ++ [{| from := expression s; to := r |}]) s)).
Proof.
  intros Hx Hr. unfold handleBetaReduce. rewrite Hx, Hr. reflexivity.
Qed.

(** C3: when the reducer returns a string [r] other than the current
    expression, the step appends the one entry from the old expression to
    [r] at the end of the history, the earlier entries staying as they
    were, and [r] becomes the current expression. *)
Theorem step_progress (s : State) (x r : jsstring) :
  expanded (savedExpressions s) (expression s) = Normal x ->
  next_beta_reduction_wasm x = Normal r ->
  r <> expression s ->
  history (step s) = history s ++ [{| from := expression s; to := r |}]
  /\ List.length (history (step s)) = S (List.length (history s))
  /\ expression (step s) = r.
Proof.
  intros Hx Hr Hne. rewrite (step_returned s Hx Hr).
  apply str_eqb_neq in Hne. rewrite Hne. simpl.
  repeat split. rewrite length_app. simpl. lia.
Qed.

(** C2: when expanding the names changes the expression and the reducer
    hands the expanded text back as it got it, the step compares that text
    with the expression before expansion, finds them different, clears the
    message, records the pair (expression, expanded text) last in the
    history and makes the expanded text the current expression. *)
Theorem step_commits_expansion (s : State) (x : jsstring) :
  expanded (savedExpressions s) (expression s) = Normal x ->
  x <> expression s ->
  next_beta_reduction_wasm x = Normal x ->
  step s =
  setError None
    (setExpression x
       (setHistory (history s ++ [{| from := expression s; to := x |}]) s)).
Proof.
  intros Hx Hne Hr. rewrite (step_returned s Hx Hr).
  apply str_eqb_neq in Hne. rewrite Hne. reflexivity.
Qed.

(** C4: when the reducer returns exactly the current, unexpanded
    expression, the step changes nothing but the message, which becomes
    the no-progress notice: history, expression and library stay. *)
Theorem step_no_progress (s : State) (x : jsstring) :
  expanded (savedExpressions s) (expression s) = Normal x ->
  next_beta_reduction_wasm x = Normal (expression s) ->
  step s = setError (Some (js "No further reduction possible.")) s
  /\ error (step s) = Some (js "No further reduction possible.")
  /\ history (step s) = history s
  /\ List.length (history (step s)) = List.length (history s)
  /\ expression (step s) = expression s
  /\ savedExpressions (step s) = savedExpressions s.
Proof.
  intros Hx Hr. rewrite (step_returned s Hx Hr), str_eqb_refl.
  repeat split.
Qed.

(** C5: when the reducer throws, the step changes nothing but the message,
    which becomes the error text with the thrown detail: expression,
    history and library are what they were. *)
Theorem step_reducer_failure (s : State) (x detail : jsstring) :
  expanded (savedExpressions s) (expression s) = Normal x ->
  next_beta_reduction_wasm x = Throw detail ->
  step s = setError (Some (js "Error: " ++ detail)) s
  /\ error (step s) = Some (js "Error: " ++ detail)
  /\ expression (step s) = expression s
  /\ history (step s) = history s
  /\ savedExpressions (step s) = savedExpressions s.
Proof.
  intros Hx Hr. unfold handleBetaReduce. rewrite Hx, Hr. repeat split.
Qed.

(** C9 (as amended): the message slot holds at most one message; an
    accepted save and a step that makes progress empty it; deleting an
    entry, using an entry and clearing the history leave in it whatever
    was there. *)
Theorem message_slot (s : State) :
  (trim (newExpressionName s) <> [] -> trim (newExpressionValue s) <> [] ->
   error (saveExpression s) = None)
  /\ (forall x r,
        expanded (savedExpressions s) (expression s) = Normal x ->
        next_beta_reduction_wasm x = Normal r ->
        r <> expression s ->
        error (step s) = None)
  /\ (forall name, error (deleteExpression name s) = error s)
  /\ (forall expr, error (applyExpression expr s) = error s)
  /\ error (clearHistory s) = error s.
Proof.
  split; [|split; [|repeat split]].
  - intros Hn Hv. rewrite saveExpression_accepts by assumption. reflexivity.
  - intros x r Hx Hr Hne. rewrite (step_returned s Hx Hr).
    apply str_eqb_neq in Hne. rewrite Hne. reflexivity.
Qed.

End StepFacts.

Lemma step_progress_witness :
  replaceNamedExpressions no_engine (savedExpressions initial) (expression initial)
  = Normal (js "(λx.x) y")
  /\ identity_reducer (js "(λx.x) y") = Normal (js "y")
  /\ js "y" <> expression initial
  /\ history (handleBetaReduce identity_reducer no_engine initial)
     = [{| from := js "(λx.x) y"; to := js "y" |}]
  /\ expression (handleBetaReduce identity_reducer no_engine initial) = js "y".
Proof.
  assert (Hx : replaceNamedExpressions no_engine (savedExpressions initial)
                 (expression initial) = Normal (js "(λx.x) y")) by reflexivity.
  assert (Hr : identity_reducer (js "(λx.x) y") = Normal (js "y")) by reflexivity.
  assert (Hne : js "y" <> expression initial) by discriminate.
  repeat (split; [assumption|]).
  destruct (@step_progress identity_reducer no_engine initial _ _ Hx Hr Hne)
    as [Hh [_ He]].
  split; [exact Hh | exact He].
Defined.

Lemma step_commits_expansion_witness :
  let s := setExpression (js "id") (save (js "id") (js "λx.x") initial) in
  replaceNamedExpressions no_engine (savedExpressions s) (expression s)
  = Normal (js "λx.x")
  /\ js "λx.x" <> expression s
  /\ echo_reducer (js "λx.x") = Normal (js "λx.x")
  /\ expression (handleBetaReduce echo_reducer no_engine s) = js "λx.x"
  /\ history (handleBetaReduce echo_reducer no_engine s)
     = [{| from := js "id"; to := js "λx.x" |}].
Proof.
  intros s.
  assert (Hx : replaceNamedExpressions no_engine (savedExpressions s)
                 (expression s) = Normal (js "λx.x")) by reflexivity.
  assert (Hne : js "λx.x" <> expression s) by discriminate.
  assert (Hr : echo_reducer (js "λx.x") = Normal (js "λx.x")) by reflexivity.
  repeat (split; [assumption|]).
  rewrite (@step_commits_expansion echo_reducer no_engine s _ Hx Hne Hr).
  split; reflexivity.
Defined.

Lemma step_no_progress_witness :
  let s := setHistory [{| from := js "(λx.x) y"; to := js "y" |}]
             (setExpression (js "y") initial) in
  replaceNamedExpressions no_engine (savedExpressions s) (expression s)
  = Normal (js "y")
  /\ identity_reducer (js "y") = Normal (expression s)
  /\ error (handleBetaReduce identity_reducer no_engine s)
     = Some (js "No further reduction possible.")
  /\ history (handleBetaReduce identity_reducer no_engine s) = history s.
Proof.
  intros s.
  assert (Hx : replaceNamedExpressions no_engine (savedExpressions s)
                 (expression s) = Normal (js "y")) by reflexivity.
  assert (Hr : identity_reducer (js "y") = Normal (expression s)) by reflexivity.
  repeat (split; [assumption|]).
  destruct (@step_no_progress identity_reducer no_engine s _ Hx Hr)
    as [_ [Hm [Hh _]]].
  split; [exact Hm | exact Hh].
Defined.

Lemma step_reducer_failure_witness :
  let s := save (js "id") (js "λx.x") initial in
  replaceNamedExpressions no_engine (savedExpressions s) (expression s)
  = Normal (js "(λx.x) y")
  /\ failing_reducer (js "(λx.x) y") = Throw (js "unexpected token")
  /\ handleBetaReduce failing_reducer no_engine s
     = setError (Some (js "Error: unexpected token")) s.
Proof.
  intros s.
  assert (Hx : replaceNamedExpressions no_engine (savedExpressions s)
                 (expression s) = Normal (js "(λx.x) y")) by reflexivity.
  assert (Hr : failing_reducer (js "(λx.x) y") = Throw (js "unexpected token"))
    by reflexivity.
  repeat (split; [assumption|]).
  destruct (@step_reducer_failure failing_reducer no_engine s _ _ Hx Hr)
    as [Hs _].
  exact Hs.
Defined.

Lemma message_slot_witness :
  let s := setError (Some (js "No further reduction possible."))
             (setNewExpressionValue (js "λx.x")
                (setNewExpressionName (js "id") initial)) in
  trim (newExpressionName s) <> []
  /\ trim (newExpressionValue s) <> []
  /\ error (saveExpression s) = None
  /\ error (handleBetaReduce identity_reducer no_engine s) = None
  /\ error (deleteExpression (js "id") s)
     = Some (js "No further reduction possible.").
Proof.
  intros s.
  destruct (message_slot identity_reducer no_engine s)
    as [Hsave [Hstep [Hdelete _]]].
  assert (Hn : trim (newExpressionName s) <> []) by discriminate.
  assert (Hv : trim (newExpressionValue s) <> []) by discriminate.
  repeat (split; [assumption|]).
  split; [exact (Hsave Hn Hv)|].
  split; [|exact (Hdelete (js "id"))].
  apply (Hstep (js "(λx.x) y") (js "y")); [reflexivity | reflexivity | discriminate].
Defined.

(** C9 as stated fails for delete, use and clear-history: none of them
    touches the message, so the notice of an earlier step stays. *)
Lemma message_survives_delete :
  let s := run echo_reducer no_engine
             [ChangeName (js "id"); ChangeValue (js "λx.x"); ClickSave;
              ChangeExpression (js "y"); ClickBetaReduce] initial in
  error s = Some (js "No further reduction possible.")
  /\ Object_entries (savedExpressions s) = [(js "id", js "λx.x")]
  /\ Object_entries
       (savedExpressions (handle echo_reducer no_engine (ClickDelete (js "id")) s))
     = []
  /\ error (handle echo_reducer no_engine (ClickDelete (js "id")) s)
     = Some (js "No further reduction possible.")
  /\ error (handle echo_reducer no_engine (ClickUse (js "λx.x")) s)
     = Some (js "No further reduction possible.")
  /\ error (handle echo_reducer no_engine ClickClearHistory s)
     = Some (js "No further reduction possible.").
Proof.
  repeat split.
Qed.

(** ** The global replace *)

Section ReplaceFacts.

Lemma word_char_not_syntax (c : code_unit) :
  is_word_char c = true -> is_syntax_character c = false.
Proof.
  intros H. unfold is_syntax_character.
  repeat match goal with
         | |- context [N.eqb c ?k] =>
             destruct (N.eqb_spec c k) as [->|_];
             [vm_compute in H; discriminate H|]
         end.
  reflexivity.
Qed.

Lemma word_name_literal (name : jsstring) :
  is_word_name name = true -> literal_source name = true.
Proof.
  unfold is_word_name, literal_source. intros H.
  apply andb_true_iff in H. destruct H as [_ H].
  rewrite forallb_forall in *. intros c Hc.
  rewrite word_char_not_syntax; [reflexivity | apply H, Hc].
Qed.

Lemma word_name_nonempty (name : jsstring) :
  is_word_name name = true -> name <> [].
Proof. destruct name; [discriminate | discriminate]. Qed.

Lemma word_name_chars (name : jsstring) :
  is_word_name name = true -> forallb is_word_char name = true.
Proof. unfold is_word_name. intros H. apply andb_true_iff in H. tauto. Qed.

Lemma starts_with_refl (t : jsstring) (r : jsstring) : starts_with t (t ++ r) = true.
Proof. induction t; simpl; [reflexivity|]. rewrite N.eqb_refl. exact IHt. Qed.

Lemma starts_with_app (m r : jsstring) :
  starts_with m r = true -> r = m ++ skipn (List.length m) r.
Proof.
  revert r; induction m as [|c m IH]; intros [|d r]; simpl; try discriminate;
    try reflexivity.
  intros H. apply andb_true_iff in H. destruct H as [Hc Hm].
  apply N.eqb_eq in Hc. subst d. f_equal. apply IH, Hm.
Qed.

Lemma word_at_inside (t : jsstring) (i : nat) :
  forallb is_word_char t = true -> i < List.length t -> word_at t i = true.
Proof.
  intros Ht Hi. unfold word_at.
  destruct (nth_error t i) as [c|] eqn:E.
  - rewrite forallb_forall in Ht. apply Ht. eapply nth_error_In, E.
  - apply nth_error_None in E. lia.
Qed.

Lemma word_at_outside (t : jsstring) (i : nat) :
  List.length t <= i -> word_at t i = false.
Proof.
  intros Hi. unfold word_at.
  apply nth_error_None in Hi. rewrite Hi. reflexivity.
Qed.

(** Inside a text made of word characters the only word boundaries are its
    two ends. *)
Lemma word_boundary_word_text (t : jsstring) (i : nat) :
  forallb is_word_char t = true ->
  word_boundary t i = true -> t <> [] /\ (i = 0 \/ i = List.length t).
Proof.
  intros Ht. unfold word_boundary, word_before.
  destruct i as [|p].
  - destruct t; [discriminate|]. intros _. split; [discriminate | auto].
  - destruct (Nat.lt_ge_cases (S p) (List.length t)) as [Hlt | Hge].
    + rewrite !word_at_inside by (assumption || lia). discriminate.
    + rewrite (word_at_outside t (i := S p)) by exact Hge.
      destruct (Nat.eq_dec (S p) (List.length t)) as [He | Hne].
      * intros _. split; [|right; exact He].
        intros ->. discriminate He.
      * rewrite word_at_outside by lia. discriminate.
Qed.

Lemma match_at_word_text (m t : jsstring) (i : nat) :
  forallb is_word_char t = true ->
  m <> [] ->
  match_at m t i = true -> i = 0 /\ m = t.
Proof.
  intros Ht Hm H. unfold match_at in H.
  apply andb_true_iff in H. destruct H as [H Hend].
  apply andb_true_iff in H. destruct H as [Hstart Hpre].
  apply (word_boundary_word_text _ _ Ht) in Hstart.
  apply (word_boundary_word_text _ _ Ht) in Hend.
  destruct Hstart as [Hne [-> | ->]].
  - split; [reflexivity|]. simpl in Hpre, Hend.
    apply starts_with_app in Hpre.
    destruct Hend as [_ [Hz | Hl]].
    + destruct m; [congruence | discriminate Hz].
    + rewrite Hl, skipn_all, app_nil_r in Hpre. symmetry; exact Hpre.
  - rewrite skipn_all in Hpre. destruct m; [congruence | discriminate Hpre].
Qed.

Lemma word_boundary_ends (t : jsstring) :
  is_word_name t = true ->
  word_boundary t 0 = true /\ word_boundary t (List.length t) = true.
Proof.
  intros Hw. pose proof (word_name_chars _ Hw) as Ht.
  destruct t as [|c t']; [discriminate Hw|].
  unfold word_boundary. split.
  - unfold word_before. rewrite word_at_inside by (assumption || simpl; lia).
    reflexivity.
  - rewrite word_at_outside by lia. simpl List.length. unfold word_before.
    rewrite word_at_inside by (assumption || simpl; lia). reflexivity.
Qed.

Lemma match_at_self (t : jsstring) :
  is_word_name t = true -> match_at t t 0 = true.
Proof.
  intros Hw. destruct (word_boundary_ends _ Hw) as [H0 Hn].
  pose proof (starts_with_refl t []) as Hs. rewrite app_nil_r in Hs.
  unfold match_at. simpl skipn. simpl Nat.add. rewrite H0, Hs, Hn. reflexivity.
Qed.

Lemma scan_none (name input : jsstring) (candidates : list nat) (lastIndex : nat) :
  (forall i, In i candidates -> match_at name input i = false) ->
  scan name input candidates lastIndex = [].
Proof.
  revert lastIndex; induction candidates as [|i rest IH]; simpl; intros k H;
    [reflexivity|].
  rewrite (H i) by (left; reflexivity). rewrite andb_false_r.
  apply IH. intros j Hj. apply H. right; exact Hj.
Qed.

Lemma GetSubstitution_plain (matched str : jsstring) (position : nat)
  (value : jsstring) :
  dollar_free value = true ->
  GetSubstitution matched str position value = value.
Proof.
  induction value as [|c v IH]; simpl; [reflexivity|].
  intros H. apply andb_true_iff in H. destruct H as [Hc Hv].
  apply negb_true_iff in Hc. rewrite Hc, IH by exact Hv. reflexivity.
Qed.

(** Replacing a name in a text that is one other word changes nothing. *)
Lemma replace_word_other (m t w : jsstring) :
  m <> [] -> forallb is_word_char t = true -> m <> t ->
  replace_word m t w = t.
Proof.
  intros Hm Ht Hne. unfold replace_word, match_positions.
  rewrite scan_none; [reflexivity|].
  intros i _. destruct (match_at m t i) eqn:E; [|reflexivity].
  apply (match_at_word_text _ _ Ht Hm) in E. tauto.
Qed.

(** Replacing a name in the text that is this name gives the body. *)
Lemma replace_word_self (t v : jsstring) :
  is_word_name t = true -> dollar_free v = true ->
  replace_word t t v = v.
Proof.
  intros Hw Hv. unfold replace_word, match_positions.
  cbn [seq scan]. rewrite (@match_at_self t Hw). simpl "&&".
  rewrite scan_none.
  - cbn [splice]. rewrite GetSubstitution_plain by exact Hv.
    simpl. rewrite skipn_all, app_nil_r. reflexivity.
  - intros i Hi. apply in_seq in Hi.
    destruct (match_at t t i) eqn:E; [|reflexivity].
    apply match_at_word_text in E;
      [lia | apply word_name_chars, Hw | apply word_name_nonempty, Hw].
Qed.

Lemma word_at_false (text : jsstring) (e : nat) :
  word_at text e = false <-> not_word_unit text e.
Proof.
  unfold word_at, not_word_unit. destruct (nth_error text e) as [c|].
  - split; [intros H c' Hc'; injection Hc' as <-; exact H | intros H; apply H; reflexivity].
  - split; [discriminate | reflexivity].
Qed.

Lemma starts_with_firstn (name r : jsstring) :
  starts_with name r = true <-> firstn (List.length name) r = name.
Proof.
  revert r; induction name as [|c name IH]; intros [|d r]; simpl;
    try (split; [reflexivity | reflexivity]); try (split; discriminate).
  rewrite andb_true_iff, N.eqb_eq, IH.
  split; [intros [-> ->]; reflexivity | intros H; injection H; auto].
Qed.

Lemma starts_with_nth (name r : jsstring) (j : nat) :
  starts_with name r = true -> j < List.length name ->
  nth_error r j = nth_error name j.
Proof.
  revert r j; induction name as [|c name IH]; intros [|d r] j; simpl;
    try discriminate; try lia.
  intros H Hj. apply andb_true_iff in H. destruct H as [Hc Hn].
  apply N.eqb_eq in Hc. subst d.
  destruct j as [|j]; simpl; [reflexivity | apply IH; [exact Hn | lia]].
Qed.

(** Where a word name occurs, the text has word characters. *)
Lemma word_at_occurrence (name text : jsstring) (i j : nat) :
  forallb is_word_char name = true ->
  starts_with name (skipn i text) = true ->
  j < List.length name ->
  word_at text (i + j) = true.
Proof.
  intros Hw Hs Hj. unfold word_at.
  rewrite <- nth_error_skipn, (@starts_with_nth name _ j Hs Hj).
  destruct (nth_error name j) as [c|] eqn:E.
  - rewrite forallb_forall in Hw. apply Hw. eapply nth_error_In, E.
  - apply nth_error_None in E. lia.
Qed.

Lemma match_at_standalone (name text : jsstring) (i : nat) :
  is_word_name name = true ->
  match_at name text i = true <-> standalone_at name text i.
Proof.
  intros Hw. pose proof (word_name_chars _ Hw) as Hc.
  assert (Hlen : 0 < List.length name).
  { destruct name; [discriminate Hw | simpl; lia]. }
  unfold match_at, standalone_at.
  rewrite !andb_true_iff, <- starts_with_firstn.
  split.
  - intros [[Hb Hs] He].
    pose proof (@word_at_occurrence name text i 0 Hc Hs Hlen) as Hfirst.
    rewrite Nat.add_0_r in Hfirst.
    assert (Hlast : word_before text (i + List.length name) = true).
    { replace (i + List.length name) with (S (i + (List.length name - 1))) by lia.
      simpl. apply (@word_at_occurrence name text i _ Hc Hs). lia. }
    unfold word_boundary in Hb, He. rewrite Hfirst in Hb. rewrite Hlast in He.
    split; [exact Hs|]. split.
    + destruct i as [|p]; [exact I|]. simpl in Hb.
      apply word_at_false. destruct (word_at text p); [discriminate Hb | reflexivity].
    + apply word_at_false.
      destruct (word_at text (i + List.length name)); [discriminate He | reflexivity].
  - intros [Hs [Hb He]].
    pose proof (@word_at_occurrence name text i 0 Hc Hs Hlen) as Hfirst.
    rewrite Nat.add_0_r in Hfirst.
    assert (Hlast : word_before text (i + List.length name) = true).
    { replace (i + List.length name) with (S (i + (List.length name - 1))) by lia.
      simpl. apply (@word_at_occurrence name text i _ Hc Hs). lia. }
    apply word_at_false in He.
    unfold word_boundary. rewrite Hfirst, Hlast, He.
    split; [split; [|exact Hs] | reflexivity].
    destruct i as [|p]; [reflexivity|]. simpl.
    apply word_at_false in Hb. rewrite Hb. reflexivity.
Qed.

(** Two matches of a word name do not overlap. *)
Lemma match_at_apart (name text : jsstring) (i c : nat) :
  is_word_name name = true ->
  match_at name text i = true ->
  i < c < i + List.length name ->
  match_at name text c = false.
Proof.
  intros Hw Hm Hc. pose proof (word_name_chars _ Hw) as Hchars.
  unfold match_at in Hm. rewrite !andb_true_iff in Hm.
  destruct Hm as [[_ Hs] _].
  unfold match_at, word_boundary.
  destruct c as [|p]; [lia|]. simpl word_before.
  replace p with (i + (p - i)) by lia.
  rewrite (@word_at_occurrence name text i _ Hchars Hs) by lia.
  replace (S (i + (p - i))) with (i + (S p - i)) by lia.
  rewrite (@word_at_occurrence name text i _ Hchars Hs) by lia.
  reflexivity.
Qed.

Lemma match_at_in_range (name text : jsstring) (i : nat) :
  name <> [] -> match_at name text i = true -> i < List.length text.
Proof.
  intros Hn Hm. unfold match_at in Hm. rewrite !andb_true_iff in Hm.
  destruct Hm as [[_ Hs] _].
  destruct (Nat.lt_ge_cases i (List.length text)) as [Hlt | Hge]; [exact Hlt|].
  rewrite skipn_all2 in Hs by exact Hge.
  destruct name; [congruence | discriminate Hs].
Qed.

(** The scan finds every index at which the pattern matches. *)
Lemma scan_finds_all (name text : jsstring) (candidates : list nat)
  (lastIndex : nat) :
  is_word_name name = true ->
  StronglySorted lt candidates ->
  (forall c, In c candidates -> c < lastIndex -> match_at name text c = false) ->
  forall i, In i (scan name text candidates lastIndex)
            <-> In i candidates /\ match_at name text i = true.
Proof.
  intros Hw Hsorted. revert lastIndex.
  induction Hsorted as [|i0 rest Hrest IH Hlt]; intros k Hskip i; cbn [scan In].
  - tauto.
  - destruct ((k <=? i0) && match_at name text i0) eqn:E.
    + apply andb_true_iff in E. destruct E as [_ Hm]. cbn [In].
      rewrite IH.
      * split; [intros [<- | [H1 H2]]; auto | intros [[H1 | H1] H2]; auto].
      * intros c Hc Hk. rewrite Forall_forall in Hlt.
        apply (@match_at_apart name text i0 c Hw Hm). specialize (Hlt c Hc). lia.
    + assert (Hm : match_at name text i0 = false).
      { apply andb_false_iff in E. destruct E as [E | E]; [|exact E].
        apply Nat.leb_gt in E. apply Hskip; [left; reflexivity | exact E]. }
      rewrite IH by (intros c Hc; apply Hskip; right; exact Hc).
      split; [intros [H1 H2]; auto | intros [[<- | H1] H2]; [congruence | auto]].
Qed.

Lemma seq_sorted (a n : nat) : StronglySorted lt (seq a n).
Proof.
  revert a; induction n as [|n IH]; intros a; simpl; constructor; [apply IH|].
  rewrite Forall_forall. intros x Hx. apply in_seq in Hx. lia.
Qed.

Lemma splice_plain (text body : jsstring) (n : nat) (positions : list nat)
  (from : nat) :
  dollar_free body = true ->
  splice text body n positions from = put_body text body n positions from.
Proof.
  intros Hb. revert from; induction positions as [|p rest IH]; intros from;
    simpl; [reflexivity|].
  rewrite GetSubstitution_plain by exact Hb. rewrite IH. reflexivity.
Qed.

(** For a name made of word characters and a body without dollar signs the
    replace selects exactly the standalone occurrences of the name and
    writes the body over each of them. *)
Lemma replace_word_standalone (name text body : jsstring) :
  is_word_name name = true ->
  dollar_free body = true ->
  (forall i, In i (match_positions name text) <-> standalone_at name text i)
  /\ replace_word name text body
     = put_body text body (List.length name) (match_positions name text) 0.
Proof.
  intros Hw Hb. split.
  - intros i. rewrite <- (@match_at_standalone name text i Hw).
    unfold match_positions.
    rewrite (@scan_finds_all name text _ 0 Hw (seq_sorted 0 _))
      by (intros; lia).
    split; [tauto|]. intros Hm. split; [|exact Hm].
    apply in_seq.
    pose proof (@match_at_in_range name text i (@word_name_nonempty name Hw) Hm). lia.
  - unfold replace_word. apply splice_plain, Hb.
Qed.

End ReplaceFacts.

(** ** Claims about the expansion of names *)

Section ExpandFacts.

Variable regexp_replace : jsstring -> jsstring -> jsstring -> completion jsstring.

Lemma replace_entries_app (l1 l2 : list entry) (t t1 : jsstring) :
  replace_entries regexp_replace l1 t = Normal t1 ->
  replace_entries regexp_replace (l1 ++ l2) t
  = replace_entries regexp_replace l2 t1.
Proof.
  revert t; induction l1 as [|e l1 IH]; simpl; intros t H.
  - injection H as ->. reflexivity.
  - destruct (replace_entry regexp_replace t e) as [t'|]; [|discriminate H].
    apply IH, H.
Qed.

Lemma replace_entry_word (t : jsstring) (name value : jsstring) :
  is_word_name name = true ->
  replace_entry regexp_replace t (name, value)
  = Normal (replace_word name t value).
Proof.
  intros Hw. unfold replace_entry. rewrite word_name_literal by exact Hw.
  reflexivity.
Qed.

(** Entries with other names leave a text that is one name as it is. *)
Lemma replace_entries_other_names (before : list entry) (name : jsstring) :
  is_word_name name = true ->
  Forall (fun e => is_word_name (fst e) = true /\ fst e <> name) before ->
  replace_entries regexp_replace before name = Normal name.
Proof.
  intros Hw. induction 1 as [|[m w] before [Hm Hne] _ IH]; simpl; [reflexivity|].
  simpl in Hm, Hne. rewrite word_name_literal by exact Hm.
  rewrite replace_word_other;
    [exact IH | apply word_name_nonempty, Hm | apply word_name_chars, Hw | exact Hne].
Qed.

(** C1 (as amended): with the library [{a: "b", b: "c"}] the text ["a"]
    expands to ["c"], because the body put in for [a] is itself expanded
    by the later entry [b]; with [{b: "c", a: "b"}] it expands to ["b"].
    In general the body put in for a name is expanded by the entries that
    come after that name in the library and by none that come before it:
    a name whose body contains a name defined earlier is left unexpanded. *)
Theorem expand_follows_library_order :
  replaceNamedExpressions regexp_replace
    (library [("a", "b"); ("b", "c")]%string) (js "a") = Normal (js "c")
  /\ replaceNamedExpressions regexp_replace
       (library [("b", "c"); ("a", "b")]%string) (js "a") = Normal (js "b")
  /\ forall (lib : object) (before after : list entry) (name body : jsstring),
       Object_entries lib = before ++ (name, body) :: after ->
       is_word_name name = true ->
       dollar_free body = true ->
       Forall (fun e => is_word_name (fst e) = true /\ fst e <> name) before ->
       replaceNamedExpressions regexp_replace lib name
       = replace_entries regexp_replace after body.
Proof.
  split; [reflexivity | split; [reflexivity|]].
  intros lib before after name body Hlib Hw Hv Hbefore.
  unfold replaceNamedExpressions. rewrite Hlib.
  rewrite (replace_entries_app before ((name, body) :: after) name
             (replace_entries_other_names Hw Hbefore)).
  cbn [replace_entries]. rewrite replace_entry_word by exact Hw.
  rewrite replace_word_self by assumption. reflexivity.
Qed.

(** C8: what [replaceNamedExpressions] returns on the two examples of the
    claim, and on inputs where it does not put the body in place of the
    standalone name: a body with a dollar pattern is not inserted as
    written, and a name that does not begin and end with a word character
    is skipped where it stands alone and replaced where it touches word
    characters. *)
Theorem replace_word_boundaries_and_patterns :
  replaceNamedExpressions regexp_replace
    (library [("foo", "baz")]%string) (js "foo bar") = Normal (js "baz bar")
  /\ replaceNamedExpressions regexp_replace
       (library [("foo", "baz")]%string) (js "foobar") = Normal (js "foobar")
  /\ replaceNamedExpressions regexp_replace
       (library [("foo", "$&")]%string) (js "foo bar") = Normal (js "foo bar")
  /\ replaceNamedExpressions regexp_replace
       (library [("foo", "$$")]%string) (js "foo bar") = Normal (js "$ bar")
  /\ replaceNamedExpressions regexp_replace
       (library [("foo", "$'")]%string) (js "foo bar") = Normal (js " bar bar")
  /\ replaceNamedExpressions regexp_replace
       (library [("Ω", "(λx.x x) (λx.x x)")]%string) (js "Ω") = Normal (js "Ω")
  /\ replaceNamedExpressions regexp_replace
       (library [("Ω", "w")]%string) (js "aΩb") = Normal (js "awb").
Proof.
  repeat split.
Qed.

End ExpandFacts.

Lemma expand_follows_library_order_witness :
  let lib := library [("b", "c"); ("a", "b"); ("c", "d")]%string in
  Object_entries lib = [(js "b", js "c")] ++ (js "a", js "b") :: [(js "c", js "d")]
  /\ is_word_name (js "a") = true
  /\ dollar_free (js "b") = true
  /\ Forall (fun e => is_word_name (fst e) = true /\ fst e <> js "a")
            [(js "b", js "c")]
  /\ replaceNamedExpressions no_engine lib (js "a") = Normal (js "b").
Proof.
  intros lib.
  assert (Hlib : Object_entries lib
                 = [(js "b", js "c")] ++ (js "a", js "b") :: [(js "c", js "d")])
    by reflexivity.
  assert (Hw : is_word_name (js "a") = true) by reflexivity.
  assert (Hv : dollar_free (js "b") = true) by reflexivity.
  assert (Hbefore : Forall (fun e => is_word_name (fst e) = true /\ fst e <> js "a")
                      [(js "b", js "c")]).
  { constructor; [split; [reflexivity | discriminate] | constructor]. }
  repeat (split; [assumption|]).
  destruct (expand_follows_library_order no_engine) as [_ [_ Hgeneral]].
  rewrite (Hgeneral lib _ _ _ _ Hlib Hw Hv Hbefore). reflexivity.
Defined.

(** C1 as stated fails: the one call returns ["c"], not ["b"]. *)
Lemma expand_reaches_later_entry :
  replaceNamedExpressions no_engine
    (library [("a", "b"); ("b", "c")]%string) (js "a") = Normal (js "c")
  /\ replaceNamedExpressions no_engine
       (library [("a", "b"); ("b", "c")]%string) (js "a") <> Normal (js "b").
Proof.
  split; [reflexivity | vm_compute; discriminate].
Qed.

(** * Further properties of the handlers *)

(** ** Saving and deleting *)

Lemma in_entries (o : object) (e : entry) :
  In e (Object_entries o) <-> In e o.
Proof.
  split; apply Permutation_in; [|symmetry]; apply entries_perm.
Qed.

Lemma in_obj_set (o : list entry) (k v k' v' : jsstring) :
  In (k', v') (obj_set o k v)
  <-> (k' = k /\ v' = v) \/ (k' <> k /\ In (k', v') o).
Proof.
  destruct (has_key k o) eqn:E.
  - apply has_key_true in E. rewrite (@obj_set_old o k v E).
    rewrite in_map_iff. split.
    + intros [[k0 v0] [Hov Hin]]. unfold overwrite in Hov. simpl in Hov.
      destruct (str_eqb k0 k) eqn:Ek.
      * apply str_eqb_eq in Ek. subst k0. injection Hov as <- <-. left; auto.
      * apply str_eqb_neq in Ek. injection Hov as <- <-. right; auto.
    + intros [[-> ->] | [Hne Hin]].
      * unfold keys in E. apply in_map_iff in E. destruct E as [[k0 v0] [Hk Hin]].
        simpl in Hk. subst k0. exists (k, v0). split; [|exact Hin].
        unfold overwrite. simpl. rewrite str_eqb_refl. reflexivity.
      * exists (k', v'). split; [|exact Hin].
        unfold overwrite. simpl. apply str_eqb_neq in Hne. rewrite Hne. reflexivity.
  - apply has_key_false in E. rewrite (@obj_set_new o k v E).
    rewrite in_app_iff. simpl. split.
    + intros [Hin | [Heq | []]].
      * right. split; [|exact Hin]. intros ->. apply E.
        unfold keys. apply in_map_iff. exists (k, v'). auto.
      * injection Heq as <- <-. left; auto.
    + intros [[-> ->] | [_ Hin]]; auto.
Qed.

(** X1: a save with a blank name or a blank body is refused: the message
    asks for both, and the library, the two input fields, the expression
    and the history are what they were. *)
Theorem save_rejects_blank (s : State) :
  trim (newExpressionName s) = [] \/ trim (newExpressionValue s) = [] ->
  saveExpression s
  = setError (Some (js "Both name and expression are required")) s.
Proof.
  intros H. unfold saveExpression.
  destruct H as [-> | ->]; simpl; [reflexivity|].
  rewrite orb_true_r. reflexivity.
Qed.

Lemma save_rejects_blank_witness :
  let s := setNewExpressionValue (js "λx.x")
             (setNewExpressionName (js "   ") (save (js "a") (js "x") initial)) in
  (trim (newExpressionName s) = [] \/ trim (newExpressionValue s) = [])
  /\ Object_entries (savedExpressions (saveExpression s)) = [(js "a", js "x")]
  /\ newExpressionValue (saveExpression s) = js "λx.x"
  /\ error (saveExpression s) = Some (js "Both name and expression are required").
Proof.
  intros s.
  assert (H : trim (newExpressionName s) = [] \/ trim (newExpressionValue s) = [])
    by (left; reflexivity).
  split; [exact H|]. rewrite (@save_rejects_blank s H). repeat split.
Defined.

(** X2: after an accepted save the library has the trimmed body under the
    trimmed name and each name once; every entry under another name is
    there exactly if it was there before; both input fields are emptied,
    the message is cleared, and the expression and the history are not
    touched. *)
Theorem save_stores_entry (s : State) :
  wf_object (savedExpressions s) ->
  trim (newExpressionName s) <> [] ->
  trim (newExpressionValue s) <> [] ->
  In (trim (newExpressionName s), trim (newExpressionValue s))
     (Object_entries (savedExpressions (saveExpression s)))
  /\ NoDup (keys (Object_entries (savedExpressions (saveExpression s))))
  /\ (forall k v, k <> trim (newExpressionName s) ->
        (In (k, v) (Object_entries (savedExpressions (saveExpression s)))
         <-> In (k, v) (Object_entries (savedExpressions s))))
  /\ newExpressionName (saveExpression s) = []
  /\ newExpressionValue (saveExpression s) = []
  /\ error (saveExpression s) = None
  /\ expression (saveExpression s) = expression s
  /\ history (saveExpression s) = history s.
Proof.
  intros Hwf Hn Hv.
  pose proof (@saveExpression_wf s Hwf) as Hwf'.
  assert (Hsaved : savedExpressions (saveExpression s)
                   = obj_set (Object_entries (savedExpressions s))
                       (trim (newExpressionName s)) (trim (newExpressionValue s))).
  { rewrite saveExpression_accepts by assumption. simpl.
    rewrite spread_entries by exact Hwf. reflexivity. }
  split; [|split; [|split]].
  - apply in_entries. rewrite Hsaved. apply in_obj_set. left; auto.
  - apply entries_wf, Hwf'.
  - intros k v Hk. rewrite in_entries, Hsaved, in_obj_set. tauto.
  - rewrite saveExpression_accepts by assumption. repeat split.
Qed.

Lemma save_stores_entry_witness :
  let s := setNewExpressionValue (js " λx.x ")
             (setNewExpressionName (js " 7 ") (save (js "a") (js "x") initial)) in
  wf_object (savedExpressions s)
  /\ trim (newExpressionName s) <> []
  /\ trim (newExpressionValue s) <> []
  /\ In (js "7", js "λx.x") (Object_entries (savedExpressions (saveExpression s)))
  /\ newExpressionName (saveExpression s) = [].
Proof.
  intros s.
  assert (Hwf : wf_object (savedExpressions s)).
  { unfold s, setNewExpressionValue, setNewExpressionName. cbn [savedExpressions].
    apply save_wf, initial_wf. }
  assert (Hn : trim (newExpressionName s) <> []) by discriminate.
  assert (Hv : trim (newExpressionValue s) <> []) by discriminate.
  repeat (split; [assumption|]).
  destruct (@save_stores_entry s Hwf Hn Hv) as [Hin [_ [_ [Hname _]]]].
  split; [exact Hin | exact Hname].
Defined.

Lemma overwrite_twice (k v1 v2 : jsstring) (e : entry) :
  overwrite k v2 (overwrite k v1 e) = overwrite k v2 e.
Proof.
  unfold overwrite. destruct (str_eqb (fst e) k) eqn:E; simpl; rewrite E; reflexivity.
Qed.

Lemma overwrite_absent (k v : jsstring) (l : list entry) :
  ~ In k (keys l) -> map (overwrite k v) l = l.
Proof.
  induction l as [|e l IH]; simpl; intros H; [reflexivity|].
  rewrite IH by tauto. f_equal. unfold overwrite.
  destruct (str_eqb (fst e) k) eqn:E; [|reflexivity].
  apply str_eqb_eq in E. tauto.
Qed.

Lemma overwrite_obj_set (o : list entry) (k v1 v2 : jsstring) :
  map (overwrite k v2) (obj_set o k v1) = obj_set o k v2.
Proof.
  destruct (has_key k o) eqn:E.
  - apply has_key_true in E.
    rewrite (@obj_set_old o k v1 E), (@obj_set_old o k v2 E), map_map.
    apply map_ext. intros e. apply overwrite_twice.
  - apply has_key_false in E.
    rewrite (@obj_set_new o k v1 E), (@obj_set_new o k v2 E), map_app.
    rewrite (@overwrite_absent k v2 o E). simpl. unfold overwrite. simpl.
    rewrite str_eqb_refl. reflexivity.
Qed.

Lemma key_in_obj_set (o : list entry) (k v : jsstring) :
  In k (keys (obj_set o k v)).
Proof.
  unfold keys. apply in_map_iff. exists (k, v). split; [reflexivity|].
  apply in_obj_set. left; auto.
Qed.

Lemma saved_after_save (s : State) :
  wf_object (savedExpressions s) ->
  trim (newExpressionName s) <> [] ->
  trim (newExpressionValue s) <> [] ->
  savedExpressions (saveExpression s)
  = obj_set (Object_entries (savedExpressions s))
      (trim (newExpressionName s)) (trim (newExpressionValue s)).
Proof.
  intros Hwf Hn Hv. rewrite saveExpression_accepts by assumption. simpl.
  rewrite spread_entries by exact Hwf. reflexivity.
Qed.

(** X3: saving twice under one name is saving the second body: the
    entries after [save name b1] then [save name b2] are those after
    [save name b2] alone, in the same order. *)
Theorem save_last_wins (s : State) (name b1 b2 : jsstring) :
  wf_object (savedExpressions s) ->
  trim name <> [] ->
  trim b1 <> [] ->
  trim b2 <> [] ->
  Object_entries (savedExpressions (save name b2 (save name b1 s)))
  = Object_entries (savedExpressions (save name b2 s)).
Proof.
  intros Hwf Hn H1 H2.
  pose proof (@save_wf name b1 s Hwf) as Hwf1.
  unfold save at 1 3.
  rewrite (@saved_after_save
             (setNewExpressionValue b2 (setNewExpressionName name (save name b1 s)))
             Hwf1 Hn H2).
  rewrite (@saved_after_save
             (setNewExpressionValue b2 (setNewExpressionName name s)) Hwf Hn H2).
  cbn [savedExpressions newExpressionName newExpressionValue
       setNewExpressionValue setNewExpressionName].
  unfold save.
  rewrite (@saved_after_save
             (setNewExpressionValue b1 (setNewExpressionName name s)) Hwf Hn H1).
  cbn [savedExpressions newExpressionName newExpressionValue
       setNewExpressionValue setNewExpressionName].
  set (E := Object_entries (savedExpressions s)).
  rewrite (@obj_set_old (Object_entries (obj_set E (trim name) (trim b1)))
             (trim name) (trim b2))
    by (apply keys_entries, key_in_obj_set).
  rewrite <- entries_map by apply overwrite_fst.
  rewrite entries_idem, overwrite_obj_set. reflexivity.
Qed.

Lemma save_last_wins_witness :
  let s := save (js "b") (js "y") (save (js "3") (js "x") initial) in
  wf_object (savedExpressions s)
  /\ trim (js "3") <> [] /\ trim (js "old") <> [] /\ trim (js "new") <> []
  /\ Object_entries (savedExpressions (save (js "3") (js "new") (save (js "3") (js "old") s)))
     = [(js "3", js "new"); (js "b", js "y")].
Proof.
  intros s.
  assert (Hwf : wf_object (savedExpressions s)).
  { unfold s. repeat apply save_wf. apply initial_wf. }
  split; [exact Hwf|]. repeat (split; [discriminate|]).
  rewrite (@save_last_wins s (js "3") (js "old") (js "new") Hwf);
    [reflexivity | discriminate | discriminate | discriminate].
Defined.

(** X4: after [deleteExpression name] no entry has that name, and when
    there was none the entries are what they were. *)
Theorem delete_removes_name (name : jsstring) (s : State) :
  wf_object (savedExpressions s) ->
  ~ In name (keys (Object_entries (savedExpressions (deleteExpression name s))))
  /\ (~ In name (keys (Object_entries (savedExpressions s))) ->
      Object_entries (savedExpressions (deleteExpression name s))
      = Object_entries (savedExpressions s)).
Proof.
  intros Hwf. rewrite (@saved_after_delete name s Hwf), entries_filter. split.
  - unfold keys. rewrite in_map_iff. intros [e [Hk Hin]].
    apply filter_In in Hin. destruct Hin as [_ Hin].
    apply negb_true_iff, str_eqb_neq in Hin. contradiction.
  - intros Habs. apply filter_absent_key, Habs.
Qed.

Lemma delete_removes_name_witness :
  let s := save (js "b") (js "y") (save (js "a") (js "x") initial) in
  wf_object (savedExpressions s)
  /\ ~ In (js "c") (keys (Object_entries (savedExpressions s)))
  /\ ~ In (js "a") (keys (Object_entries (savedExpressions (deleteExpression (js "a") s))))
  /\ Object_entries (savedExpressions (deleteExpression (js "c") s))
     = [(js "a", js "x"); (js "b", js "y")].
Proof.
  intros s.
  assert (Hwf : wf_object (savedExpressions s)).
  { unfold s. repeat apply save_wf. apply initial_wf. }
  assert (Habs : ~ In (js "c") (keys (Object_entries (savedExpressions s)))).
  { vm_compute. intros [H | [H | []]]; discriminate H. }
  split; [exact Hwf|]. split; [exact Habs|]. split.
  - apply (@delete_removes_name (js "a") s Hwf).
  - destruct (@delete_removes_name (js "c") s Hwf) as [_ Hsame].
    rewrite (Hsame Habs). reflexivity.
Defined.

(** ** The enumeration order under filtering and under a new index name *)

Lemma insert_index_front (x : entry) (l : list entry) :
  Forall (index_le x) l -> insert_index x l = x :: l.
Proof.
  intros H. destruct H as [|y l Hy _]; simpl; [reflexivity|].
  apply N.leb_le in Hy. rewrite Hy. reflexivity.
Qed.

Lemma filter_insert_drop (p : entry -> bool) (x : entry) (l : list entry) :
  p x = false -> filter p (insert_index x l) = filter p l.
Proof.
  intros Hx. induction l as [|y l IH]; simpl; [rewrite Hx; reflexivity|].
  destruct (index_of x <=? index_of y)%N; simpl.
  - rewrite Hx. reflexivity.
  - rewrite IH. reflexivity.
Qed.

Lemma filter_insert_keep (p : entry -> bool) (x : entry) (l : list entry) :
  StronglySorted index_le l ->
  p x = true -> filter p (insert_index x l) = insert_index x (filter p l).
Proof.
  intros Hs Hx. induction Hs as [|y l Hs IH Hy]; simpl; [rewrite Hx; reflexivity|].
  destruct (index_of x <=? index_of y)%N eqn:E; simpl.
  - rewrite Hx. symmetry. apply insert_index_front.
    apply N.leb_le in E.
    assert (Hall : Forall (index_le x) (y :: l)).
    { constructor; [exact E|]. eapply Forall_impl; [|exact Hy].
      unfold index_le. intros; lia. }
    rewrite Forall_forall in *. intros z Hz.
    apply Hall. change (In z (filter p (y :: l))) in Hz.
    apply filter_In in Hz. tauto.
  - rewrite IH. destruct (p y); simpl; [rewrite E|]; reflexivity.
Qed.

Lemma filter_sort_index (p : entry -> bool) (l : list entry) :
  filter p (sort_index l) = sort_index (filter p l).
Proof.
  induction l as [|x l IH]; simpl; [reflexivity|].
  destruct (p x) eqn:Hx; simpl.
  - rewrite filter_insert_keep by (apply sort_index_sorted || exact Hx).
    rewrite IH. reflexivity.
  - rewrite filter_insert_drop by exact Hx. exact IH.
Qed.

Lemma filter_swap (A : Type) (p q : A -> bool) (l : list A) :
  filter p (filter q l) = filter q (filter p l).
Proof.
  induction l as [|x l IH]; simpl; [reflexivity|].
  destruct (q x) eqn:Hq, (p x) eqn:Hp; simpl; rewrite ?Hq, ?Hp, IH; reflexivity.
Qed.

(** Filtering an object and enumerating it can be done in either order. *)
Lemma entries_filter_any (p : entry -> bool) (l : list entry) :
  Object_entries (filter p l) = filter p (Object_entries l).
Proof.
  unfold Object_entries. rewrite filter_app, filter_sort_index.
  rewrite (filter_swap is_index p l).
  rewrite (filter_swap (fun e => negb (is_index e)) p l). reflexivity.
Qed.

(** X5: saving a name the library does not have and then deleting it
    gives back the entries there were, in their order, whatever the name
    (array index or not). *)
Theorem save_then_delete_any (name body : jsstring) (s : State) :
  wf_object (savedExpressions s) ->
  trim name <> [] ->
  trim body <> [] ->
  ~ In (trim name) (keys (Object_entries (savedExpressions s))) ->
  Object_entries
    (savedExpressions (deleteExpression (trim name) (save name body s)))
  = Object_entries (savedExpressions s).
Proof.
  intros Hwf Hn Hb Hnew.
  pose proof (@save_wf name body s Hwf) as Hwf1.
  rewrite (@saved_after_delete (trim name) (save name body s) Hwf1).
  rewrite entries_filter, <- entries_filter_any.
  unfold save.
  rewrite (@saved_after_save
             (setNewExpressionValue body (setNewExpressionName name s)) Hwf Hn Hb).
  cbn [savedExpressions newExpressionName newExpressionValue
       setNewExpressionValue setNewExpressionName].
  rewrite (@obj_set_new (Object_entries (savedExpressions s)) (trim name)
             (trim body) Hnew).
  rewrite filter_app. cbn [filter fst]. rewrite str_eqb_refl. cbn [negb].
  rewrite app_nil_r.
  rewrite entries_filter. apply filter_absent_key, Hnew.
Qed.

Lemma save_then_delete_any_witness :
  let s := save (js "b") (js "y") (save (js "5") (js "x") (save (js "a") (js "w") initial)) in
  wf_object (savedExpressions s)
  /\ trim (js " 2 ") <> [] /\ trim (js "z") <> []
  /\ ~ In (trim (js " 2 ")) (keys (Object_entries (savedExpressions s)))
  /\ Object_entries (savedExpressions (save (js " 2 ") (js "z") s))
     = [(js "2", js "z"); (js "5", js "x"); (js "a", js "w"); (js "b", js "y")]
  /\ Object_entries
       (savedExpressions (deleteExpression (js "2") (save (js " 2 ") (js "z") s)))
     = [(js "5", js "x"); (js "a", js "w"); (js "b", js "y")].
Proof.
  intros s.
  assert (Hwf : wf_object (savedExpressions s)).
  { unfold s. repeat apply save_wf. apply initial_wf. }
  assert (Hnew : ~ In (trim (js " 2 ")) (keys (Object_entries (savedExpressions s)))).
  { vm_compute. intros [H | [H | [H | []]]]; discriminate H. }
  split; [exact Hwf|]. repeat (split; [discriminate|]).
  split; [exact Hnew|]. split; [reflexivity|].
  change (js "2") with (trim (js " 2 ")) at 1.
  rewrite (@save_then_delete_any (js " 2 ") (js "z") s Hwf); try discriminate;
    [reflexivity | exact Hnew].
Defined.

Lemma sort_index_snoc (ix : list entry) (e : entry) :
  StronglySorted index_le ix ->
  sort_index (ix ++ [e])
  = filter (fun x => (index_of x <=? index_of e)%N) ix
      ++ e :: filter (fun x => negb (index_of x <=? index_of e)%N) ix.
Proof.
  induction 1 as [|x ix Hs IH Hx]; simpl; [reflexivity|].
  rewrite IH. destruct (index_of x <=? index_of e)%N eqn:E; simpl.
  - apply insert_index_front.
    apply N.leb_le in E. apply Forall_app. split.
    + rewrite Forall_forall in *. intros y Hy. apply filter_In in Hy.
      apply Hx, Hy.
    + constructor; [exact E|].
      rewrite Forall_forall in *. intros y Hy. apply filter_In in Hy.
      apply Hx, Hy.
  - apply N.leb_gt in E.
    assert (Hnone : filter (fun y => (index_of y <=? index_of e)%N) ix = []).
    { apply filter_none. eapply Forall_impl; [|exact Hx].
      unfold index_le. intros y Hy. apply N.leb_gt. lia. }
    assert (Hall : filter (fun y => negb (index_of y <=? index_of e)%N) ix = ix).
    { apply filter_all. eapply Forall_impl; [|exact Hx].
      unfold index_le. intros y Hy. apply negb_true_iff, N.leb_gt. lia. }
    rewrite Hnone, Hall. simpl.
    assert (Hgt : (index_of x <=? index_of e)%N = false) by (apply N.leb_gt; exact E).
    rewrite Hgt. f_equal. apply insert_index_front. exact Hx.
Qed.

Lemma entries_snoc_index (ix rest : list entry) (e : entry) :
  Forall (fun x => is_index x = true) ix ->
  StronglySorted index_le ix ->
  Forall (fun x => is_index x = false) rest ->
  is_index e = true ->
  Object_entries ((ix ++ rest) ++ [e])
  = filter (index_at_most (index_of e)) (ix ++ rest)
      ++ e :: filter (fun x => negb (index_at_most (index_of e) x)) (ix ++ rest).
Proof.
  intros Hix Hs Hrest He. unfold Object_entries.
  rewrite !filter_app. cbn [filter]. rewrite He. cbn [negb].
  rewrite (filter_all _ Hix), (filter_none _ Hrest).
  rewrite (@filter_none _ (fun x => negb (is_index x)) ix)
    by (eapply Forall_impl; [|exact Hix]; simpl; intros x ->; reflexivity).
  rewrite (@filter_all _ (fun x => negb (is_index x)) rest)
    by (eapply Forall_impl; [|exact Hrest]; simpl; intros x ->; reflexivity).
  rewrite (@filter_none _ (index_at_most (index_of e)) rest)
    by (eapply Forall_impl; [|exact Hrest]; unfold index_at_most; simpl;
        intros x ->; reflexivity).
  rewrite (@filter_all _ (fun x => negb (index_at_most (index_of e) x)) rest)
    by (eapply Forall_impl; [|exact Hrest]; unfold index_at_most; simpl;
        intros x ->; reflexivity).
  rewrite (@filter_ext_in _ (index_at_most (index_of e))
             (fun x => (index_of x <=? index_of e)%N) ix).
  - rewrite (@filter_ext_in _ (fun x => negb (index_at_most (index_of e) x))
               (fun x => negb (index_of x <=? index_of e)%N) ix).
    + simpl. rewrite !app_nil_r. rewrite sort_index_snoc by exact Hs.
      rewrite <- !app_assoc. reflexivity.
    + rewrite Forall_forall in Hix. intros x Hx. unfold index_at_most.
      rewrite (Hix x Hx). reflexivity.
  - rewrite Forall_forall in Hix. intros x Hx. unfold index_at_most.
    rewrite (Hix x Hx). reflexivity.
Qed.

(** X6: a new name that is an array index [n] is not put last: of the
    entries there were, those named by an array index up to [n] come
    before it, all the others after it, each group in its old order. *)
Theorem save_new_index_name (s : State) (name body : jsstring) (n : N) :
  wf_object (savedExpressions s) ->
  trim name <> [] ->
  trim body <> [] ->
  ~ In (trim name) (keys (Object_entries (savedExpressions s))) ->
  array_index (trim name) = Some n ->
  Object_entries (savedExpressions (save name body s))
  = filter (index_at_most n) (Object_entries (savedExpressions s))
      ++ (trim name, trim body)
      :: filter (fun e => negb (index_at_most n e))
           (Object_entries (savedExpressions s)).
Proof.
  intros Hwf Hn Hv Hnew Hix. unfold save.
  rewrite (@saved_after_save
             (setNewExpressionValue body (setNewExpressionName name s)) Hwf Hn Hv).
  cbn [savedExpressions newExpressionName newExpressionValue
       setNewExpressionValue setNewExpressionName].
  rewrite (@obj_set_new _ _ (trim body) Hnew).
  set (e := (trim name, trim body)).
  assert (He : is_index e = true) by (unfold is_index, e; simpl; rewrite Hix; reflexivity).
  assert (Hn' : index_of e = n) by (unfold index_of, e; simpl; rewrite Hix; reflexivity).
  rewrite <- Hn'.
  change (Object_entries (savedExpressions s))
    with (sort_index (filter is_index (savedExpressions s))
            ++ filter (fun x => negb (is_index x)) (savedExpressions s)).
  apply entries_snoc_index;
    [apply index_part_all | apply sort_index_sorted | apply other_part_all | exact He].
Qed.

Lemma save_new_index_name_witness :
  let s := save (js "b") (js "y") (save (js "10") (js "x")
             (save (js "a") (js "w") (save (js "3") (js "v") initial))) in
  wf_object (savedExpressions s)
  /\ trim (js "7") <> []
  /\ trim (js "z") <> []
  /\ ~ In (trim (js "7")) (keys (Object_entries (savedExpressions s)))
  /\ array_index (trim (js "7")) = Some 7%N
  /\ Object_entries (savedExpressions (save (js "7") (js "z") s))
     = [(js "3", js "v"); (js "7", js "z"); (js "10", js "x");
        (js "a", js "w"); (js "b", js "y")].
Proof.
  intros s.
  assert (Hwf : wf_object (savedExpressions s)).
  { unfold s. repeat apply save_wf. apply initial_wf. }
  assert (Hnew : ~ In (trim (js "7")) (keys (Object_entries (savedExpressions s)))).
  { vm_compute. intros [H | [H | [H | [H | []]]]]; discriminate H. }
  assert (Hix : array_index (trim (js "7")) = Some 7%N) by reflexivity.
  assert (Hn : trim (js "7") <> []) by discriminate.
  assert (Hv : trim (js "z") <> []) by discriminate.
  repeat (split; [assumption|]).
  rewrite (@save_new_index_name s (js "7") (js "z") 7%N Hwf Hn Hv Hnew Hix).
  vm_compute. reflexivity.
Defined.

(** ** The reduction step, whatever its outcome *)

Section StepFrame.

Variable next_beta_reduction_wasm : jsstring -> completion jsstring.
Variable regexp_replace : jsstring -> jsstring -> jsstring -> completion jsstring.

(** X7: whatever the expansion and the reducer do, a step leaves the
    library, the two input fields and the loading flag alone, and either
    keeps history and expression and sets a message, or appends exactly
    one entry that leads from the old expression to a different new one
    and clears the message. *)
Theorem step_frame (s : State) :
  let s' := handleBetaReduce next_beta_reduction_wasm regexp_replace s in
  savedExpressions s' = savedExpressions s
  /\ newExpressionName s' = newExpressionName s
  /\ newExpressionValue s' = newExpressionValue s
  /\ loading s' = loading s
  /\ ((history s' = history s /\ expression s' = expression s
       /\ exists m, error s' = Some m)
      \/ (exists r, r <> expression s
            /\ history s' = history s ++ [{| from := expression s; to := r |}]
            /\ expression s' = r /\ error s' = None)).
Proof.
  unfold handleBetaReduce.
  destruct (replaceNamedExpressions regexp_replace (savedExpressions s) (expression s))
    as [x | err]; simpl.
  - destruct (next_beta_reduction_wasm x) as [r | err]; simpl.
    + destruct (str_eqb r (expression s)) eqn:E; simpl.
      * repeat split. left. repeat split. eexists; reflexivity.
      * repeat split. right. exists r. apply str_eqb_neq in E. repeat split; assumption.
    + repeat split. left. repeat split. eexists; reflexivity.
  - repeat split. left. repeat split. eexists; reflexivity.
Qed.

(** X8: when expanding the names throws (the pattern built from a name
    is not a regular expression), the step reports the thrown value after
    ["Error: "], changes nothing else, and does not depend on the reducer,
    which is not called. *)
Theorem step_expansion_failure (other_reducer : jsstring -> completion jsstring)
  (s : State) (err : jsstring) :
  replaceNamedExpressions regexp_replace (savedExpressions s) (expression s)
  = Throw err ->
  handleBetaReduce next_beta_reduction_wasm regexp_replace s
  = setError (Some (js "Error: " ++ err)) s
  /\ handleBetaReduce other_reducer regexp_replace s
     = handleBetaReduce next_beta_reduction_wasm regexp_replace s.
Proof.
  intros H. unfold handleBetaReduce. rewrite H. split; reflexivity.
Qed.

Lemma linked_snoc (h : list reduction) (e r : jsstring) :
  linked h e -> linked (h ++ [{| from := e; to := r |}]) r.
Proof.
  induction h as [|a h IH]; simpl; [reflexivity|].
  destruct h as [|b h]; simpl in *.
  - intros ->. split; reflexivity.
  - intros [Hab Hrest]. split; [exact Hab | apply IH, Hrest].
Qed.

Lemma handle_linked (ev : event) (s : State) :
  keeps_expression ev = true ->
  linked (history s) (expression s) ->
  linked (history (handle next_beta_reduction_wasm regexp_replace ev s))
         (expression (handle next_beta_reduction_wasm regexp_replace ev s)).
Proof.
  intros Hev Hl. destruct ev as [[| members |]| | | | | | | | |]; simpl in *;
    try discriminate Hev; try exact Hl; try exact I.
  - unfold handleBetaReduce.
    destruct (replaceNamedExpressions _ _ _) as [x|]; [|exact Hl].
    destruct (next_beta_reduction_wasm x) as [r|]; [|exact Hl].
    destruct (str_eqb r (expression s)); [exact Hl|].
    simpl. apply linked_snoc, Hl.
  - unfold saveExpression.
    destruct (is_empty _ || is_empty _); exact Hl.
Qed.

(** X9: as long as the expression is changed by reduction steps only (no
    typing into the text area, no Use), the history is a chain: every
    entry starts from the result of the entry before it, and the last
    result is the current expression. *)
Theorem history_is_chain (evs : list event) (s : State) :
  forallb keeps_expression evs = true ->
  linked (history s) (expression s) ->
  linked (history (run next_beta_reduction_wasm regexp_replace evs s))
         (expression (run next_beta_reduction_wasm regexp_replace evs s)).
Proof.
  revert s; induction evs as [|ev evs IH]; simpl; intros s Hevs Hl; [exact Hl|].
  apply andb_true_iff in Hevs. destruct Hevs as [Hev Hevs].
  apply IH; [exact Hevs | apply handle_linked; assumption].
Qed.

End StepFrame.

Section ExpandNoOccurrence.

Variable regexp_replace : jsstring -> jsstring -> jsstring -> completion jsstring.

(** X10: when no name of the library occurs in the text as a standalone
    token (names made of word characters), the expansion returns the text
    as it is. *)
Theorem expand_without_occurrence (lib : object) (text : jsstring) :
  Forall (fun e => is_word_name (fst e) = true
                   /\ forall i, ~ standalone_at (fst e) text i)
         (Object_entries lib) ->
  replaceNamedExpressions regexp_replace lib text = Normal text.
Proof.
  unfold replaceNamedExpressions.
  induction 1 as [|[name value] rest [Hw Hnone] _ IH]; simpl; [reflexivity|].
  simpl in Hw, Hnone. rewrite (@word_name_literal name Hw).
  assert (Hpos : match_positions name text = []).
  { destruct (match_positions name text) as [|i l] eqn:E; [reflexivity|].
    exfalso. apply (Hnone i).
    apply (@match_at_standalone name text i Hw).
    assert (Hin : In i (match_positions name text)) by (rewrite E; left; reflexivity).
    unfold match_positions in Hin.
    apply (@scan_finds_all name text _ 0 Hw (seq_sorted 0 _)) in Hin;
      [tauto | intros; lia]. }
  unfold replace_word. rewrite Hpos. simpl. exact IH.
Qed.

End ExpandNoOccurrence.

Lemma step_expansion_failure_witness :
  let s := save (js "+") (js "λm.λn.λf.λx.m f (n f x)") initial in
  replaceNamedExpressions no_engine (savedExpressions s) (expression s)
  = Throw (js "SyntaxError: Invalid regular expression")
  /\ handleBetaReduce echo_reducer no_engine s
     = setError (Some (js "Error: SyntaxError: Invalid regular expression")) s
  /\ handleBetaReduce failing_reducer no_engine s
     = handleBetaReduce echo_reducer no_engine s.
Proof.
  intros s.
  assert (H : replaceNamedExpressions no_engine (savedExpressions s) (expression s)
              = Throw (js "SyntaxError: Invalid regular expression"))
    by (vm_compute; reflexivity).
  split; [exact H|].
  destruct (@step_expansion_failure echo_reducer no_engine failing_reducer s _ H)
    as [H1 H2].
  split; [rewrite H1; vm_compute; reflexivity | exact H2].
Defined.

Lemma history_is_chain_witness :
  let evs := [ChangeName (js "y"); ChangeValue (js "z"); ClickSave; ClickBetaReduce;
              ChangeName (js "z"); ChangeValue (js "w"); ClickSave; ClickBetaReduce;
              ClickBetaReduce; ClickDelete (js "y")] in
  forallb keeps_expression evs = true
  /\ linked (history initial) (expression initial)
  /\ history (run echo_reducer no_engine evs initial)
     = [{| from := js "(λx.x) y"; to := js "(λx.x) z" |};
        {| from := js "(λx.x) z"; to := js "(λx.x) w" |}]
  /\ linked (history (run echo_reducer no_engine evs initial))
            (expression (run echo_reducer no_engine evs initial)).
Proof.
  intros evs.
  assert (Hevs : forallb keeps_expression evs = true) by reflexivity.
  assert (Hl : linked (history initial) (expression initial)) by exact I.
  split; [exact Hevs|]. split; [exact Hl|]. split; [vm_compute; reflexivity|].
  exact (@history_is_chain echo_reducer no_engine evs initial Hevs Hl).
Defined.

Lemma no_standalone_occurrence (name text : jsstring) :
  is_word_name name = true ->
  match_positions name text = [] ->
  forall i, ~ standalone_at name text i.
Proof.
  intros Hw Hnone i Hi.
  destruct (@replace_word_standalone name text [] Hw eq_refl) as [Hocc _].
  apply Hocc in Hi. rewrite Hnone in Hi. exact Hi.
Qed.

Lemma expand_without_occurrence_witness :
  let lib := library [("foo", "baz"); ("x", "λz.z")]%string in
  Forall (fun e => is_word_name (fst e) = true
                   /\ forall i, ~ standalone_at (fst e) (js "foobar λxy.xy") i)
         (Object_entries lib)
  /\ replaceNamedExpressions no_engine lib (js "foobar λxy.xy")
     = Normal (js "foobar λxy.xy").
Proof.
  intros lib.
  assert (H : Forall (fun e => is_word_name (fst e) = true
                   /\ forall i, ~ standalone_at (fst e) (js "foobar λxy.xy") i)
                (Object_entries lib)).
  { constructor; [|constructor; [|constructor]];
      (split; [reflexivity | apply no_standalone_occurrence; vm_compute; reflexivity]). }
  split; [exact H|].
  exact (@expand_without_occurrence no_engine lib _ H).
Defined.

Section SingleEntry.

Variable regexp_replace : jsstring -> jsstring -> jsstring -> completion jsstring.

(** X11: with a library of one entry whose name is made of word
    characters and whose body has no dollar sign, the expansion writes the
    body over exactly the standalone occurrences of the name and keeps the
    rest of the text. *)
Theorem expand_single_entry (lib : object) (name body text : jsstring) :
  Object_entries lib = [(name, body)] ->
  is_word_name name = true ->
  dollar_free body = true ->
  (forall i, In i (match_positions name text) <-> standalone_at name text i)
  /\ replaceNamedExpressions regexp_replace lib text
     = Normal (put_body text body (List.length name) (match_positions name text) 0).
Proof.
  intros Hlib Hw Hb.
  destruct (@replace_word_standalone name text body Hw Hb) as [Hocc Hres].
  split; [exact Hocc|].
  unfold replaceNamedExpressions. rewrite Hlib. cbn [replace_entries replace_entry].
  rewrite (@word_name_literal name Hw), Hres. reflexivity.
Qed.

End SingleEntry.

Lemma expand_single_entry_witness :
  let lib := library [("id", "(λx.x)")]%string in
  Object_entries lib = [(js "id", js "(λx.x)")]
  /\ is_word_name (js "id") = true
  /\ dollar_free (js "(λx.x)") = true
  /\ match_positions (js "id") (js "id (id_ id) λid.idx") = [0; 8; 13]
  /\ standalone_at (js "id") (js "id (id_ id) λid.idx") 8
  /\ replaceNamedExpressions no_engine lib (js "id (id_ id) λid.idx")
     = Normal (js "(λx.x) (id_ (λx.x)) λ(λx.x).idx").
Proof.
  intros lib.
  assert (Hlib : Object_entries lib = [(js "id", js "(λx.x)")])
    by (vm_compute; reflexivity).
  assert (Hw : is_word_name (js "id") = true) by (vm_compute; reflexivity).
  assert (Hb : dollar_free (js "(λx.x)") = true) by (vm_compute; reflexivity).
  destruct (@expand_single_entry no_engine lib (js "id") (js "(λx.x)")
              (js "id (id_ id) λid.idx") Hlib Hw Hb) as [Hocc Hres].
  split; [exact Hlib|]. split; [exact Hw|]. split; [exact Hb|].
  assert (Hpos : match_positions (js "id") (js "id (id_ id) λid.idx") = [0; 8; 13])
    by (vm_compute; reflexivity).
  split; [exact Hpos|].
  split; [apply (proj1 (Hocc 8)); rewrite Hpos; right; left; reflexivity|].
  rewrite Hres. vm_compute. reflexivity.
Defined.

(** ** The stored copy of the library *)

Lemma storage_effect_written (o : object) (store : stored) :
  Object_entries o <> [] -> storage_effect o store = Members (Object_entries o).
Proof.
  unfold storage_effect. destruct (Object_entries o); [congruence | reflexivity].
Qed.

Lemma storage_effect_skipped (o : object) (store : stored) :
  Object_entries o = [] -> storage_effect o store = store.
Proof. unfold storage_effect. intros ->. reflexivity. Qed.

Lemma entries_empty_dec (o : object) :
  {Object_entries o = []} + {Object_entries o <> []}.
Proof. destruct (Object_entries o); [left; reflexivity | right; discriminate]. Qed.

Lemma JSON_parse_entries (o : object) :
  wf_object o -> JSON_parse (Object_entries o) = Object_entries o.
Proof.
  intros Hwf. unfold JSON_parse.
  rewrite define_all_fresh; [reflexivity|]. simpl. apply entries_wf, Hwf.
Qed.

Section SessionFacts.

Variable next_beta_reduction_wasm : jsstring -> completion jsstring.
Variable regexp_replace : jsstring -> jsstring -> jsstring -> completion jsstring.

Lemma effect_in_step (s : State) (store : stored) :
  store_in_step (s, storage_effect (savedExpressions s) store).
Proof.
  unfold store_in_step. simpl.
  destruct (entries_empty_dec (savedExpressions s)) as [E | E]; [left; exact E|].
  right. apply storage_effect_written, E.
Qed.

Lemma session_handle_in_step (ev : event) (w : State * stored) :
  store_in_step w ->
  store_in_step (session_handle next_beta_reduction_wasm regexp_replace ev w).
Proof.
  destruct w as [s store]. intros H.
  destruct ev as [saved | | | | | | | | |]; cbn [session_handle];
    try exact H; try apply effect_in_step.
  - destruct store as [| members |]; [exact H | apply effect_in_step | exact H].
  - unfold store_in_step in *. cbn [fst snd handle] in *.
    rewrite handleBetaReduce_library. exact H.
  - destruct (is_empty (trim (newExpressionName s))
              || is_empty (trim (newExpressionValue s))) eqn:E;
      [|apply effect_in_step].
    unfold store_in_step in *. cbn [fst snd] in *.
    unfold saveExpression. rewrite E. exact H.
Qed.

Lemma session_run_in_step (evs : list event) (w : State * stored) :
  store_in_step w ->
  store_in_step (session_run next_beta_reduction_wasm regexp_replace evs w).
Proof.
  revert w; induction evs as [|ev evs IH]; simpl; intros w H; [exact H|].
  apply IH, session_handle_in_step, H.
Qed.

Lemma session_handle_wf (ev : event) (w : State * stored) :
  wf_object (savedExpressions (fst w)) ->
  wf_object (savedExpressions
               (fst (session_handle next_beta_reduction_wasm regexp_replace ev w))).
Proof.
  destruct w as [s store]. cbn [fst]. intros H.
  destruct ev as [saved | | | | | | | | |]; cbn [session_handle fst handle];
    try exact H.
  - destruct store as [| members |]; cbn [fst]; simpl; try exact H.
    apply define_all_wf. constructor.
  - rewrite handleBetaReduce_library. exact H.
  - destruct (is_empty _ || is_empty _); cbn [fst]; apply saveExpression_wf, H.
  - apply obj_delete_wf, spread_wf.
Qed.

Lemma session_run_wf (evs : list event) (w : State * stored) :
  wf_object (savedExpressions (fst w)) ->
  wf_object (savedExpressions
               (fst (session_run next_beta_reduction_wasm regexp_replace evs w))).
Proof.
  revert w; induction evs as [|ev evs IH]; simpl; intros w H; [exact H|].
  apply IH, session_handle_wf, H.
Qed.

Lemma reload_entries (o : object) (s0 : State) (payload : stored) :
  wf_object o ->
  Object_entries
    (savedExpressions
       (fst (session_handle next_beta_reduction_wasm regexp_replace
               (WasmReady payload) (s0, Members (Object_entries o)))))
  = Object_entries o.
Proof.
  intros Hwf. cbn [session_handle fst initialised].
  cbn [savedExpressions setSavedExpressions].
  rewrite (@JSON_parse_entries o Hwf). apply entries_idem.
Qed.


(** X13: a library that is not empty at the end of a session is what the
    next session loads: the same names and bodies in the same order. *)
Theorem library_survives_restart (evs : list event) (store0 : stored)
  (payload : stored) :
  let w := session_run next_beta_reduction_wasm regexp_replace evs (initial, store0) in
  Object_entries (savedExpressions (fst w)) <> [] ->
  Object_entries
    (savedExpressions
       (fst (session_handle next_beta_reduction_wasm regexp_replace
               (WasmReady payload) (initial, snd w))))
  = Object_entries (savedExpressions (fst w)).
Proof.
  intros w Hne.
  assert (Hwf : wf_object (savedExpressions (fst w)))
    by (apply session_run_wf, initial_wf).
  assert (Hstep : store_in_step w)
    by (apply session_run_in_step; left; reflexivity).
  destruct Hstep as [E | E]; [contradiction|].
  rewrite E.
  exact (@reload_entries (savedExpressions (fst w)) initial payload Hwf).
Qed.

(** X14: a delete that empties the library is not written to the store:
    the store keeps the entries from before the delete, and the next
    session loads them again. *)
Theorem delete_to_empty_not_stored (name : jsstring) (s : State) (store payload : stored) :
  wf_object (savedExpressions s) ->
  store = Members (Object_entries (savedExpressions s)) ->
  Object_entries (savedExpressions (deleteExpression name s)) = [] ->
  let w := session_handle next_beta_reduction_wasm regexp_replace
             (ClickDelete name) (s, store) in
  Object_entries (savedExpressions (fst w)) = []
  /\ snd w = store
  /\ Object_entries
       (savedExpressions
          (fst (session_handle next_beta_reduction_wasm regexp_replace
                  (WasmReady payload) (initial, snd w))))
     = Object_entries (savedExpressions s).
Proof.
  intros Hwf Hstore Hempty. cbn [session_handle].
  cbv zeta. cbn [fst snd].
  rewrite (@storage_effect_skipped _ store Hempty).
  split; [exact Hempty|]. split; [reflexivity|].
  rewrite Hstore.
  exact (@reload_entries (savedExpressions s) initial payload Hwf).
Qed.

End SessionFacts.

Lemma library_survives_restart_witness :
  let evs := [WasmReady NoRecord; ChangeName (js "id"); ChangeValue (js "λx.x");
              ClickSave; ChangeName (js " 2 "); ChangeValue (js "λf.λx.f (f x)");
              ClickSave; ClickBetaReduce] in
  let w := session_run identity_reducer no_engine evs (initial, Malformed (js "{")) in
  Object_entries (savedExpressions (fst w)) <> []
  /\ snd w = Members [(js "2", js "λf.λx.f (f x)"); (js "id", js "λx.x")]
  /\ Object_entries
       (savedExpressions
          (fst (session_handle identity_reducer no_engine (WasmReady NoRecord)
                  (initial, snd w))))
     = [(js "2", js "λf.λx.f (f x)"); (js "id", js "λx.x")].
Proof.
  intros evs w. subst w.
  assert (Hne : Object_entries
                  (savedExpressions
                     (fst (session_run identity_reducer no_engine evs
                             (initial, Malformed (js "{"))))) <> [])
    by (vm_compute; discriminate).
  split; [exact Hne|]. split; [vm_compute; reflexivity|].
  rewrite (@library_survives_restart identity_reducer no_engine evs
             (Malformed (js "{")) NoRecord Hne).
  vm_compute. reflexivity.
Defined.

Lemma delete_to_empty_not_stored_witness :
  let s := save (js "id") (js "λx.x") initial in
  let store := Members [(js "id", js "λx.x")] in
  let w := session_handle echo_reducer no_engine (ClickDelete (js "id")) (s, store) in
  wf_object (savedExpressions s)
  /\ store = Members (Object_entries (savedExpressions s))
  /\ Object_entries (savedExpressions (deleteExpression (js "id") s)) = []
  /\ snd w = Members [(js "id", js "λx.x")]
  /\ Object_entries
       (savedExpressions
          (fst (session_handle echo_reducer no_engine (WasmReady NoRecord)
                  (initial, snd w))))
     = [(js "id", js "λx.x")].
Proof.
  intros s store w. subst w.
  assert (Hwf : wf_object (savedExpressions s)) by (apply save_wf, initial_wf).
  assert (Hstore : store = Members (Object_entries (savedExpressions s)))
    by (vm_compute; reflexivity).
  assert (Hempty : Object_entries (savedExpressions (deleteExpression (js "id") s)) = [])
    by (vm_compute; reflexivity).
  split; [exact Hwf|]. split; [exact Hstore|]. split; [exact Hempty|].
  destruct (@delete_to_empty_not_stored echo_reducer no_engine (js "id") s store
              NoRecord Hwf Hstore Hempty) as [_ [Hkept Hreload]].
  split; [exact Hkept|].
  rewrite Hreload. vm_compute. reflexivity.
Defined.

(** ** The message that is shown *)

Section MessageFacts.

Variable next_beta_reduction_wasm : jsstring -> completion jsstring.
Variable regexp_replace : jsstring -> jsstring -> jsstring -> completion jsstring.




End MessageFacts.


(** ** Trimmed names and bodies *)

Lemma trim_start_head (s : jsstring) (c : code_unit) (r : jsstring) :
  trim_start s = c :: r -> is_whitespace c = false.
Proof.
  induction s as [|d s IH]; simpl; [discriminate|].
  destruct (is_whitespace d) eqn:E; [exact IH|].
  intros H. injection H as <- _. exact E.
Qed.

Lemma trim_start_suffix (s : jsstring) :
  exists ws, s = ws ++ trim_start s.
Proof.
  induction s as [|d s [ws IH]]; simpl; [exists []; reflexivity|].
  destruct (is_whitespace d).
  - exists (d :: ws). simpl. rewrite <- IH. reflexivity.
  - exists []. reflexivity.
Qed.

Lemma trim_start_fixed (s : jsstring) :
  (forall c r, s = c :: r -> is_whitespace c = false) -> trim_start s = s.
Proof.
  destruct s as [|d s]; simpl; [reflexivity|].
  intros H. rewrite (H d s eq_refl). reflexivity.
Qed.

Lemma trim_ends (s : jsstring) :
  (forall c r, trim s = c :: r -> is_whitespace c = false)
  /\ (forall r c, trim s = r ++ [c] -> is_whitespace c = false).
Proof.
  unfold trim.
  destruct (trim_start_suffix (rev (trim_start s))) as [ws Hws].
  set (b := trim_start (rev (trim_start s))) in *.
  split.
  - intros c r Hc.
    apply (@trim_start_head s c (r ++ rev ws)).
    rewrite <- (rev_involutive (trim_start s)), Hws, rev_app_distr, Hc.
    reflexivity.
  - intros r c Hc.
    assert (Hb : b = c :: rev r).
    { rewrite <- (rev_involutive b), Hc, rev_app_distr. reflexivity. }
    exact (@trim_start_head (rev (trim_start s)) c (rev r) Hb).
Qed.

Lemma trim_fixed (t : jsstring) :
  (forall c r, t = c :: r -> is_whitespace c = false) ->
  (forall r c, t = r ++ [c] -> is_whitespace c = false) ->
  trim t = t.
Proof.
  intros Hhead Hlast. unfold trim.
  rewrite (@trim_start_fixed t Hhead).
  rewrite trim_start_fixed; [apply rev_involutive|].
  intros c r Hc. apply (Hlast (rev r) c).
  rewrite <- (rev_involutive t), Hc. reflexivity.
Qed.

(** X16: what an accepted save stores is trimmed for good: the stored
    name and body are not empty, have no white space at either end, and
    trimming them again changes nothing, so that saving under the name as
    it is listed overwrites that entry. *)
Theorem save_stores_trimmed (s : State) :
  trim (newExpressionName s) <> [] ->
  trim (newExpressionValue s) <> [] ->
  no_outer_space (trim (newExpressionName s))
  /\ no_outer_space (trim (newExpressionValue s))
  /\ trim (trim (newExpressionName s)) = trim (newExpressionName s)
  /\ trim (trim (newExpressionValue s)) = trim (newExpressionValue s)
  /\ savedExpressions (saveExpression s)
     = obj_set (spread (savedExpressions s))
         (trim (newExpressionName s)) (trim (newExpressionValue s)).
Proof.
  intros Hn Hv.
  destruct (trim_ends (newExpressionName s)) as [Hn1 Hn2].
  destruct (trim_ends (newExpressionValue s)) as [Hv1 Hv2].
  split; [repeat split; assumption|].
  split; [repeat split; assumption|].
  split; [apply trim_fixed; assumption|].
  split; [apply trim_fixed; assumption|].
  rewrite saveExpression_accepts by assumption. reflexivity.
Qed.

Lemma save_stores_trimmed_witness :
  let s := setNewExpressionValue (js "  λx. x ")
             (setNewExpressionName (js " id  ") initial) in
  trim (newExpressionName s) <> []
  /\ trim (newExpressionValue s) <> []
  /\ no_outer_space (trim (newExpressionName s))
  /\ Object_entries (savedExpressions (saveExpression s)) = [(js "id", js "λx. x")].
Proof.
  intros s.
  assert (Hn : trim (newExpressionName s) <> []) by (vm_compute; discriminate).
  assert (Hv : trim (newExpressionValue s) <> []) by (vm_compute; discriminate).
  destruct (@save_stores_trimmed s Hn Hv) as [Hname [_ [_ [_ Hsaved]]]].
  split; [exact Hn|]. split; [exact Hv|]. split; [exact Hname|].
  rewrite Hsaved. vm_compute. reflexivity.
Defined.
